(** * Bloom shipper: block resolution and fetch orchestration

    A shallow embedding of [pkg/storage/stores/shipper/bloomshipper]
    (the file declaring [Shipper], [GetBlockRefs], [Fetch], [findBlocks]
    and [isOutsideRange]) together with the properties the design
    document states about it.

    Conventions.
    - [uint64] fingerprints are [N]: the code only compares them.
    - [model.Time] (an [int64] of milliseconds) is [Z]: only compared.
    - Go's [int] is a [Z] wrapped to 64 bits by [wrapInt].
    - A Go [map] is a [gmap]; iterating a map with [range] visits the
      entries in an order the language leaves unspecified, which is the
      [MapOrder] argument of [findBlocks].
    - Channels and [select] are the list of events the loop of [Fetch]
      observes, one per iteration. *)

From stdpp Require Import gmap strings list fin_maps sorting.
From Stdlib Require Import ZArith NArith Lia.

Local Open Scope Z_scope.

(** ** Data model *)

Module Model.

(** [type fpRange [2]uint64] *)
Definition fpRange : Type := (N * N)%type.

Definition minFp (r : fpRange) : N := r.1.
Definition maxFp (r : fpRange) : N := r.2.

(** Zero values of the Go types that [getFirstLast] is instantiated at. *)
Class GoZero (T : Type) := goZero : T.
Global Instance fpRange_zero : GoZero fpRange := (0%N, 0%N).

(** Modelled from the spec: [BlockRef] is declared in the client file
    of the package; these are the fields the design document lists,
    which are the ones the shipper reads. *)
Record BlockRef := mkBlockRef {
  BlockPath : string;
  MinFingerprint : N;
  MaxFingerprint : N;
  StartTimestamp : Z;
  EndTimestamp : Z;
}.

Global Instance BlockRef_eq_dec : EqDecision BlockRef.
Proof. solve_decision. Defined.

(** Modelled from the spec: [Meta], a manifest with its tombstones and
    its active blocks. *)
Record Meta := mkMeta {
  Tombstones : list BlockRef;
  Blocks : list BlockRef;
}.

(** Modelled from the spec: the argument of [GetMetas], with the
    fields that [getActiveBlockRefs] sets. *)
Record MetaSearchParams := mkMetaSearchParams {
  spTenantID : string;
  spMinFingerprint : N;
  spMaxFingerprint : N;
  spStartTimestamp : Z;
  spEndTimestamp : Z;
}.

(** Go [error] values that are not nil: a root error, or the result of
    [fmt.Errorf] with one [%w] verb, which keeps the wrapped error. *)
Inductive error :=
| ErrNew (msg : string)
| ErrWrap (prefix : string) (inner : error).

Global Instance error_eq_dec : EqDecision error.
Proof. solve_decision. Defined.

(** [err.Error()] *)
Fixpoint errorString (e : error) : string :=
  match e with
  | ErrNew msg => msg
  | ErrWrap prefix inner => prefix +:+ errorString inner
  end.

(** The number of layers of context around the root error. *)
Fixpoint layers (e : error) : nat :=
  match e with
  | ErrNew _ => 0
  | ErrWrap _ inner => S (layers inner)
  end.

(** [errors.Unwrap] *)
Definition Unwrap (e : error) : option error :=
  match e with
  | ErrNew _ => None
  | ErrWrap _ inner => Some inner
  end.

(** [errors.Is e target], with equality of error values. *)
Fixpoint errorsIs (e target : error) : bool :=
  bool_decide (e = target) ||
  match e with
  | ErrNew _ => false
  | ErrWrap _ inner => errorsIs inner target
  end.

End Model.

Import Model.

(** ** Range arithmetic and the filtering engine *)

Module Filter.

(** [getFirstLast]: first and last item of a slice, zero values when
    the slice is empty. *)
Definition getFirstLast {T} `{GoZero T} (s : list T) : T * T :=
  match s with
  | [] => (goZero, goZero)
  | x :: _ => (x, List.last s goZero)
  end.

(** The [for] loop of [isOutsideRange]; [prev] is the cursor. *)
Fixpoint gapScan (b : BlockRef) (prev : fpRange) (fingerprints : list fpRange) : bool :=
  match fingerprints with
  | [] => false
  | fpr :: rest =>
      if (maxFp prev <? MinFingerprint b)%N && (MaxFingerprint b <? minFp fpr)%N
      then true
      else gapScan b fpr rest
  end.

Definition isOutsideRange (b : BlockRef) (startTimestamp endTimestamp : Z)
    (fingerprints : list fpRange) : bool :=
  if (EndTimestamp b <? startTimestamp) || (endTimestamp <? StartTimestamp b)
  then true
  else
    let '(minFpRange, maxFpRange) := getFirstLast fingerprints in
    if (MaxFingerprint b <? minFp minFpRange)%N || (maxFp maxFpRange <? MinFingerprint b)%N
    then true
    else gapScan b (0%N, 0%N) fingerprints.

(** The order in which [range] visits a map is not specified by Go: it
    is some arrangement of the entries of the map. *)
Record MapOrder := mkMapOrder {
  rangeOver : gmap string BlockRef → list (string * BlockRef);
  rangeOver_perm : ∀ m, rangeOver m ≡ₚ map_to_list m;
}.

(** First loop nest of [findBlocks]: the set of tombstoned paths. *)
Definition outdatedBlocksOf (metas : list Meta) : gset string :=
  foldl (λ acc meta,
           foldl (λ acc tombstone, {[ BlockPath tombstone ]} ∪ acc)
                 acc (Tombstones meta))
        ∅ metas.

(** Body of the second loop nest, for one block. *)
Definition visitBlock (outdatedBlocks : gset string) (startTimestamp endTimestamp : Z)
    (fingerprints : list fpRange)
    (blocksSet : gmap string BlockRef) (block : BlockRef) : gmap string BlockRef :=
  if decide (BlockPath block ∈ outdatedBlocks) then blocksSet
  else if isOutsideRange block startTimestamp endTimestamp fingerprints then blocksSet
  else <[ BlockPath block := block ]> blocksSet.

(** Second loop nest of [findBlocks]. *)
Definition blocksSetOf (metas : list Meta) (startTimestamp endTimestamp : Z)
    (fingerprints : list fpRange) : gmap string BlockRef :=
  let outdatedBlocks := outdatedBlocksOf metas in
  foldl (λ acc meta,
           foldl (visitBlock outdatedBlocks startTimestamp endTimestamp fingerprints)
                 acc (Blocks meta))
        ∅ metas.

Definition findBlocks (o : MapOrder) (metas : list Meta) (startTimestamp endTimestamp : Z)
    (fingerprints : list fpRange) : list BlockRef :=
  (rangeOver o (blocksSetOf metas startTimestamp endTimestamp fingerprints)).*2.

(** One admissible iteration order: the one of [map_to_list]. *)
Definition listOrder : MapOrder :=
  {| rangeOver := map_to_list; rangeOver_perm := λ m, reflexivity _ |}.

(** Another one: the reverse. *)
Definition reverseOrder : MapOrder :=
  {| rangeOver := λ m, reverse (map_to_list m);
     rangeOver_perm := λ m, reverse_Permutation _ |}.

End Filter.

Import Filter.

(** ** Resolving the active blocks *)

Module Resolve.

(** The comparison closure handed to [slices.SortStableFunc]. *)
Definition cmpMinFingerprint (a b : BlockRef) : Z :=
  if (MinFingerprint a <? MinFingerprint b)%N then -1
  else if (MinFingerprint b <? MinFingerprint a)%N then 1
  else 0.

(** [slices.SortStableFunc] belongs to golang.org/x/exp/slices. It is a
    stable sort; on a slice of at most twenty elements it is exactly the
    insertion sort below, and on longer slices it merges blocks sorted
    this way, which yields the same slice for an ordering by a key.

    [sinkLeft] is the inner loop: the new element [x] moves left past
    each neighbour [y] with [cmp x y < 0]. The sorted prefix is kept with
    its last element first. *)
Section SortStable.
Context {E : Type} (cmp : E → E → Z).

Fixpoint sinkLeft (x : E) (revPrefix : list E) : list E :=
  match revPrefix with
  | [] => [x]
  | y :: revPrefix' =>
      if cmp x y <? 0 then y :: sinkLeft x revPrefix'
      else x :: revPrefix
  end.

Definition SortStableFunc (data : list E) : list E :=
  reverse (foldl (λ revPrefix x, sinkLeft x revPrefix) [] data).

End SortStable.

(** The manifest store client, an interface of which the shipper calls
    [GetMetas]; the context argument carries nothing the result is
    computed from here. *)
Class Client := GetMetas : MetaSearchParams → list Meta * option error.

(** The search that [getActiveBlockRefs] sends to the store. *)
Definition searchParams (tenantID : string) (from through : Z)
    (fingerprints : list fpRange) : MetaSearchParams :=
  let '(minFpRange, maxFpRange) := getFirstLast fingerprints in
  {| spTenantID := tenantID;
     spMinFingerprint := minFp minFpRange;
     spMaxFingerprint := maxFp maxFpRange;
     spStartTimestamp := from;
     spEndTimestamp := through |}.

Definition getActiveBlockRefs `{Client} (o : MapOrder) (tenantID : string)
    (from through : Z) (fingerprints : list fpRange) : list BlockRef * option error :=
  let '(metas, err) := GetMetas (searchParams tenantID from through fingerprints) in
  match err with
  | Some e => ([], Some (ErrWrap "error fetching meta.json files: " e))
  | None =>
      let activeBlocks := findBlocks o metas from through fingerprints in
      (SortStableFunc cmpMinFingerprint activeBlocks, None)
  end.

Definition MaxUint64 : N := 18446744073709551615%N.

Definition GetBlockRefs `{Client} (o : MapOrder) (tenantID : string)
    (from through : Z) : list BlockRef * option error :=
  let '(blockRefs, err) :=
    getActiveBlockRefs o tenantID from through [(0%N, MaxUint64)] in
  match err with
  | Some e => ([], Some (ErrWrap "error fetching active block references : " e))
  | None => (blockRefs, None)
  end.

End Resolve.

Import Resolve.

(** ** Fetch orchestration *)

Module Orchestration.

(** Modelled from the spec: [blockWithQuerier] is declared with the
    block downloader; it pairs the reference of a fetched block with
    its opened query handle, here the identity of that handle. *)
Record blockWithQuerier := mkBlockWithQuerier {
  bwqRef : BlockRef;
  bwqQuerier : N;
}.

(** What one call of the caller's handler does: return nil, return an
    error, or panic. The handler may keep state of its own, [St]. *)
Inductive callbackResult :=
| CbNil
| CbErr (e : error)
| CbPanic (v : string).

Definition ForEachBlockCallback (St : Type) : Type :=
  St → N → N → N → St * callbackResult.

(** The observable steps of a call of [Fetch]. *)
Inductive action :=
| ACallback (block : blockWithQuerier)
| AClose (block : blockWithQuerier)
| ACancel.

Global Instance blockWithQuerier_eq_dec : EqDecision blockWithQuerier.
Proof. solve_decision. Defined.
Global Instance action_eq_dec : EqDecision action.
Proof. solve_decision. Defined.

Inductive callResult :=
| RNil
| RErr (e : error)
| RPanic (v : string).

(** [callback(block.closableBlockQuerier.BlockQuerier,
    block.MinFingerprint, block.MaxFingerprint)] *)
Definition invoke {St} (callback : ForEachBlockCallback St) (s : St)
    (block : blockWithQuerier) : St * callbackResult :=
  callback s (bwqQuerier block)
    (MinFingerprint (bwqRef block)) (MaxFingerprint (bwqRef block)).

(** [runCallback]: the deferred function closes the block after the
    handler has returned or panicked. *)
Definition runCallback {St} (callback : ForEachBlockCallback St) (s : St)
    (block : blockWithQuerier) : St * list action * callResult :=
  let '(s', r) := invoke callback s block in
  let body :=
    match r with
    | CbNil => RNil
    | CbErr e =>
        RErr (ErrWrap ("error running callback function for block "
                         +:+ BlockPath (bwqRef block) +:+ " err: ") e)
    | CbPanic v => RPanic v
    end in
  (s', [ACallback block] ++ [AClose block], body).

(** What one [select] of the loop of [Fetch] receives. The downloader
    sends only errors that are not nil on its error channel. *)
Inductive event :=
| CtxDone (err : error)
| ErrRecv (err : error)
| ResRecv (result : blockWithQuerier).

(** How a call stands once the given events are used up: it returned,
    it panicked, or it is waiting in [select]. A [run] records that,
    the steps taken, the state of the handler, the local variable
    [remaining] and the events never received. *)
Inductive outcome :=
| Returned (err : option error)
| Panicked (v : string)
| Waiting.

Record run (St : Type) := mkRun {
  runOutcome : outcome;
  runTrace : list action;
  runState : St;
  runRemaining : Z;
  runUnread : list event;
}.
Arguments mkRun {St}.
Arguments runOutcome {St}.
Arguments runTrace {St}.
Arguments runState {St}.
Arguments runRemaining {St}.
Arguments runUnread {St}.

Definition after {St} (tr : list action) (r : run St) : run St :=
  mkRun (runOutcome r) (tr ++ runTrace r) (runState r) (runRemaining r) (runUnread r).

(** Go's [int], 64 bits wide. *)
Definition MaxInt : Z := 2 ^ 63 - 1.
Definition wrapInt (z : Z) : Z := (z + 2 ^ 63) mod 2 ^ 64 - 2 ^ 63.
Definition len {A} (s : list A) : Z := Z.of_nat (length s).

(** The [for { select { ... } }] loop of [Fetch]. *)
Fixpoint fetchLoop {St} (callback : ForEachBlockCallback St) (s : St)
    (remaining : Z) (events : list event) : run St :=
  match events with
  | [] => mkRun Waiting [] s remaining []
  | CtxDone err :: rest =>
      mkRun (Returned (Some (ErrWrap "failed to fetch blocks: " err))) [] s remaining rest
  | ErrRecv err :: rest =>
      mkRun (Returned (Some (ErrWrap "failed to fetch blocks: " err))) [] s remaining rest
  | ResRecv result :: rest =>
      let '(s', tr, r) := runCallback callback s result in
      match r with
      | RErr e => mkRun (Returned (Some e)) tr s' remaining rest
      | RPanic v => mkRun (Panicked v) tr s' remaining rest
      | RNil =>
          let remaining := wrapInt (remaining - 1) in
          if remaining =? 0 then mkRun (Returned None) tr s' remaining rest
          else after tr (fetchLoop callback s' remaining rest)
      end
  end.

(** [Fetch]. [fetchErr] is the error result of the downloader's [fetch]
    and [events] is what its channels and the context then deliver. The
    deferred [cancelFunc] runs when the call returns or panics. *)
Definition Fetch {St} (callback : ForEachBlockCallback St) (s : St)
    (blocks : list BlockRef) (fetchErr : option error) (events : list event) : run St :=
  let r :=
    match fetchErr with
    | Some err => mkRun (Returned (Some err)) [] s (len blocks) events
    | None => fetchLoop callback s (len blocks) events
    end in
  match runOutcome r with
  | Waiting => r
  | _ => mkRun (runOutcome r) (runTrace r ++ [ACancel]) (runState r)
               (runRemaining r) (runUnread r)
  end.

(** The blocks the handler was invoked on, and those closed, in order. *)
Definition callbacksOf (tr : list action) : list blockWithQuerier :=
  omap (λ a, match a with ACallback b => Some b | _ => None end) tr.
Definition closesOf (tr : list action) : list blockWithQuerier :=
  omap (λ a, match a with AClose b => Some b | _ => None end) tr.

(** The blocks among a list of events. *)
Definition deliveries (events : list event) : list blockWithQuerier :=
  omap (λ ev, match ev with ResRecv b => Some b | _ => None end) events.

(** The steps taken for a list of received blocks: for each block the
    handler runs, then the block is closed. *)
Definition handled (bs : list blockWithQuerier) : list action :=
  bs ≫= λ b, [ACallback b; AClose b].

(** The step taken when the call ends. *)
Definition finish (o : outcome) : list action :=
  match o with
  | Waiting => []
  | _ => [ACancel]
  end.

(** The handler returns nil on each block of a list, in turn. *)
Fixpoint allNil {St} (callback : ForEachBlockCallback St) (s : St)
    (bs : list blockWithQuerier) : Prop :=
  match bs with
  | [] => True
  | b :: bs' =>
      (invoke callback s b).2 = CbNil ∧ allNil callback (invoke callback s b).1 bs'
  end.

(** The error with which an event makes the loop return, if it does. *)
Definition stopError {St} (callback : ForEachBlockCallback St) (s : St)
    (ev : event) : option error :=
  match ev with
  | CtxDone err => Some (ErrWrap "failed to fetch blocks: " err)
  | ErrRecv err => Some (ErrWrap "failed to fetch blocks: " err)
  | ResRecv b =>
      match (invoke callback s b).2 with
      | CbErr e =>
          Some (ErrWrap ("error running callback function for block "
                           +:+ BlockPath (bwqRef b) +:+ " err: ") e)
      | _ => None
      end
  end.

(** The error an event carries into the loop. *)
Definition causeOf {St} (callback : ForEachBlockCallback St) (s : St)
    (ev : event) : option error :=
  match ev with
  | CtxDone err => Some err
  | ErrRecv err => Some err
  | ResRecv b =>
      match (invoke callback s b).2 with
      | CbErr e => Some e
      | _ => None
      end
  end.

(** [err] adds a layer of context around [cause]. *)
Definition addsContext (err cause : error) : Prop :=
  ∃ prefix inner, err = ErrWrap prefix inner ∧ errorsIs inner cause = true.

End Orchestration.

Import Orchestration.

(** ** The vocabulary of the design document *)

Module Props.

(** The time interval of [b] misses the window [[from, through]]. *)
Definition timeDisjoint (b : BlockRef) (from through : Z) : Prop :=
  EndTimestamp b < from ∨ through < StartTimestamp b.

(** First and last range of a sequence, the zero range when empty. *)
Definition firstRange (R : list fpRange) : fpRange := default (0%N, 0%N) (head R).
Definition lastRange (R : list fpRange) : fpRange := default (0%N, 0%N) (last R).

(** The fingerprint interval of [b] misses the overall bound of [R]. *)
Definition boundDisjoint (b : BlockRef) (R : list fpRange) : Prop :=
  (MaxFingerprint b < minFp (firstRange R))%N ∨
  (maxFp (lastRange R) < MinFingerprint b)%N.

(** The fingerprint interval of [b] lies strictly inside the gap
    between two consecutive elements of [R]. *)
Definition inGap (b : BlockRef) (R : list fpRange) : Prop :=
  ∃ (i : nat) (p c : fpRange),
    R !! i = Some p ∧ R !! S i = Some c ∧
    (maxFp p < MinFingerprint b)%N ∧ (MaxFingerprint b < minFp c)%N.

(** Ascending and non-overlapping, the contract on shard ranges. *)
Definition ascending (R : list fpRange) : Prop :=
  Forall (λ r, (minFp r ≤ maxFp r)%N) R ∧
  ∀ (i : nat) (p c : fpRange),
    R !! i = Some p → R !! S i = Some c → (maxFp p < minFp c)%N.

(** The shard ranges of the worked scenario. *)
Definition shards : list fpRange := [(0%N, 10%N); (20%N, 30%N)].

(** The blocks of the metas in the order the second loop nest of
    [findBlocks] visits them. *)
Definition walk (metas : list Meta) : list BlockRef := metas ≫= Blocks.

(** [path] is the path of a tombstone of one of the metas. *)
Definition tombstoned (metas : list Meta) (path : string) : Prop :=
  ∃ meta t, meta ∈ metas ∧ t ∈ Tombstones meta ∧ BlockPath t = path.

(** A visited block that is neither tombstoned nor outside the range. *)
Definition active (metas : list Meta) (from through : Z) (R : list fpRange)
    (b : BlockRef) : Prop :=
  (BlockPath b ∉ outdatedBlocksOf metas) ∧ isOutsideRange b from through R = false.

Global Instance active_dec metas from through R b :
  Decision (active metas from through R b).
Proof. unfold active. apply _. Defined.

(** The active blocks in the order of the walk: discovery order. *)
Definition discovered (metas : list Meta) (from through : Z) (R : list fpRange)
    : list BlockRef :=
  filter (active metas from through R) (walk metas).

(** The entries of a list that carry a given path, or a given key. *)
Definition withPath (path : string) (l : list BlockRef) : list BlockRef :=
  filter (λ b, BlockPath b = path) l.
Definition withMinFp (k : N) (l : list BlockRef) : list BlockRef :=
  filter (λ b, MinFingerprint b = k) l.

(** Ascending order of [MinFingerprint]. *)
Definition byMinFp (a b : BlockRef) : Prop :=
  (MinFingerprint a ≤ MinFingerprint b)%N.


(** Entries of [out] with equal [MinFingerprint] stand in the order in
    which they stand in [reference]. *)
Definition tiesOrderedAs (reference out : list BlockRef) : Prop :=
  ∀ k, withMinFp k out = withMinFp k reference.

(** A call that received the blocks [delivered] and nothing else has
    returned nil after one invocation of the handler per requested
    block. *)
Definition fetchCompletes {St} (callback : ForEachBlockCallback St) (s : St)
    (blocks : list BlockRef) (delivered : list blockWithQuerier) : Prop :=
  runOutcome (Fetch callback s blocks None (ResRecv <$> delivered)) = Returned None ∧
  length (callbacksOf (runTrace (Fetch callback s blocks None (ResRecv <$> delivered))))
    = length blocks.

(** The two ways for a call to end that the design document names. *)
Definition allOrPartial (o : outcome) : Prop :=
  o = Returned None ∨ ∃ err, o = Returned (Some err).

End Props.

Import Props.

(** ** Sample inputs *)

Module Samples.

Definition wide : list fpRange := [(0%N, 100%N)].

Definition blockA : BlockRef := mkBlockRef "a" 7 9 0 10.
Definition blockB : BlockRef := mkBlockRef "b" 7 12 0 10.
Definition blockC : BlockRef := mkBlockRef "c" 3 8 0 10.


(** A block whose fingerprints start at 0. *)
Definition blockZ : BlockRef := mkBlockRef "z" 0 4 0 10.

Definition fetchedA : blockWithQuerier := mkBlockWithQuerier blockA 1.
Definition fetchedB : blockWithQuerier := mkBlockWithQuerier blockB 2.
Definition fetchedC : blockWithQuerier := mkBlockWithQuerier blockC 3.

(** A manifest store that answers every search with the same metas,
    and one that fails. *)
Definition storeOf (metas : list Meta) : Client := λ _, (metas, None).
Definition brokenStore (e : error) : Client := λ _, ([], Some e).

(** Handlers that count their invocations. *)
Definition countOk : ForEachBlockCallback nat := λ s _ _ _, (S s, CbNil).
Definition countFail : ForEachBlockCallback nat :=
  λ s _ _ _, (S s, CbErr (ErrNew "handler failed")).
Definition countPanic : ForEachBlockCallback nat :=
  λ s _ _ _, (S s, CbPanic "handler panicked").

(** A handler that fails on its third invocation. *)
Definition failThird : ForEachBlockCallback nat :=
  λ s _ _ _, (S s, if decide (s = 2%nat) then CbErr (ErrNew "handler failed") else CbNil).

(** Three blocks requested; two are delivered, out of request order,
    then the downloader reports an error, and the third block arrives
    after that. *)
Definition requested : list BlockRef := [blockA; blockB; blockC].
Definition twoDelivered : list event := [ResRecv fetchedB; ResRecv fetchedA].
Definition downloadFailed : error := ErrNew "download failed".
Definition twoThenError : list event :=
  twoDelivered ++ ErrRecv downloadFailed :: [ResRecv fetchedC].

End Samples.

Import Samples.

(** ** Further vocabulary *)

Module Extra.

(** The fingerprint interval of [b] and the range [r] share a
    fingerprint. *)
Definition overlaps (b : BlockRef) (r : fpRange) : Prop :=
  (MinFingerprint b ≤ maxFp r)%N ∧ (minFp r ≤ MaxFingerprint b)%N.

(** The range [p] ends before the range [c] starts. *)
Definition before (p c : fpRange) : Prop := (maxFp p < minFp c)%N.

(** The ranges that [GetBlockRefs] passes on: the whole domain. *)
Definition fullDomain : list fpRange := [(0%N, MaxUint64)].

(** Ranges out of order, and a block inside the second of them. *)
Definition unordered : list fpRange := [(20%N, 30%N); (0%N, 10%N)].
Definition blockLow : BlockRef := mkBlockRef "low" 5 8 0 10.

End Extra.

Import Extra.

(** ** Cached iterators

    The package [iter] wraps an entry iterator, a sample iterator and a
    batch sample iterator in the same way: [cachedIterator],
    [cachedSampleIterator] and [cacheBatchSampleIterator] differ in the
    type of what they carry and in what their accessors return when
    there is no current item. The embedding is written once, over the
    type [V] of the value (an entry, a sample, a record), the type [L]
    of the labels, and the two values returned in place of a missing
    item. *)

Module CachedIter.

(** [entryWithLabels], [sampleWithLabels], [samplesWithLabels] *)
Record item (V L : Type) := mkItem {
  itemValue : V;
  itemLabels : L;
  itemStreamHash : N;
}.
Arguments mkItem {V L}.
Arguments itemValue {V L}.
Arguments itemLabels {V L}.
Arguments itemStreamHash {V L}.

(** The wrapped iterator is an interface value with state of its own,
    [W]: [Next] and [Close] change it, the accessors read it. *)
Class Iterator (V L W : Type) := {
  wNext : W → bool * W;
  wValue : W → V;
  wLabels : W → L;
  wStreamHash : W → N;
  wError : W → option error;
  wClose : W → option error * W;
}.

(** The struct; [wrapped] is [None] once the field is set to nil. *)
Record cachedIterator (V L W : Type) := mkCached {
  cache : list (item V L);
  wrapped : option W;
  curr : Z;
  closeErr : option error;
  iterErr : option error;
}.
Arguments mkCached {V L W}.
Arguments cache {V L W}.
Arguments wrapped {V L W}.
Arguments curr {V L W}.
Arguments closeErr {V L W}.
Arguments iterErr {V L W}.

(** What the accessors return when there is no current item: the zero
    entry or sample and the empty label string for the first two
    iterators, the empty record and a list holding one empty string
    for the batch iterator. *)
Class Missing (V L : Type) := {
  zeroValue : V;
  noLabels : L;
}.

Section Cached.

Context {V L W : Type} `{!Iterator V L W} `{!Missing V L}.

(** The item made of what the accessors of the wrapped iterator return. *)
Definition shownBy (w : W) : item V L := mkItem (wValue w) (wLabels w) (wStreamHash w).

(** [NewCachedIterator]; [make] panics on a negative capacity, in which
    case there is no iterator. The capacity only reserves room. *)
Definition NewCachedIterator (it : W) (cap : Z) : option (cachedIterator V L W) :=
  if cap <? 0 then None
  else Some (mkCached [] (Some it) (-1) None None).

Definition Reset (it : cachedIterator V L W) : cachedIterator V L W :=
  mkCached (cache it) (wrapped it) (-1) (closeErr it) (iterErr it).

Definition Wrapped (it : cachedIterator V L W) : option W := wrapped it.

(** [x == nil] for an interface value. *)
Definition isNil (x : option W) : bool :=
  match x with
  | None => true
  | Some _ => false
  end.

Definition consumeWrapped (it : cachedIterator V L W) : bool * cachedIterator V L W :=
  match Wrapped it with
  | None => (false, it)
  | Some w =>
      let '(ok, w) := wNext w in
      if negb ok then
        let '(closeErr', w) := wClose w in
        (false, mkCached (cache it) None (curr it) closeErr' (wError w))
      else
        (true,
         mkCached (cache it ++ [shownBy w])
                  (Some w) (wrapInt (curr it + 1)) (closeErr it) (iterErr it))
  end.

Definition Next (it : cachedIterator V L W) : bool * cachedIterator V L W :=
  if (len (cache it) =? 0) && isNil (Wrapped it)
  then (false, it)
  else if len (cache it) <=? wrapInt (curr it + 1) then
    match Wrapped it with
    | Some _ => consumeWrapped it
    | None => (false, it)
    end
  else (true, mkCached (cache it) (wrapped it) (wrapInt (curr it + 1))
                       (closeErr it) (iterErr it)).

(** The guard shared by the three accessors. *)
Definition noCurrent (it : cachedIterator V L W) : bool :=
  (len (cache it) =? 0) || (curr it <? 0) || (len (cache it) <=? curr it).

(** [Entry], [Sample], [Samples] *)
Definition Entry (it : cachedIterator V L W) : V :=
  if noCurrent it then zeroValue
  else from_option itemValue zeroValue (cache it !! Z.to_nat (curr it)).

Definition Labels (it : cachedIterator V L W) : L :=
  if noCurrent it then noLabels
  else from_option itemLabels noLabels (cache it !! Z.to_nat (curr it)).

Definition StreamHash (it : cachedIterator V L W) : N :=
  if noCurrent it then 0%N
  else from_option itemStreamHash 0%N (cache it !! Z.to_nat (curr it)).

Definition Error (it : cachedIterator V L W) : option error := iterErr it.

Definition Close (it : cachedIterator V L W) : option error * cachedIterator V L W :=
  (closeErr it, Reset it).

(** What a caller reads after a successful [Next]. *)
Definition current (it : cachedIterator V L W) : item V L :=
  mkItem (Entry it) (Labels it) (StreamHash it).

(** A pass: [Next] until it returns false, reading the current item
    after each success. [None] when the pass is longer than [fuel]. *)
Fixpoint pass (fuel : nat) (it : cachedIterator V L W)
    : option (list (item V L) * cachedIterator V L W) :=
  match fuel with
  | O => None
  | S fuel =>
      let '(ok, it) := Next it in
      if ok then
        match pass fuel it with
        | Some (xs, it') => Some (current it :: xs, it')
        | None => None
        end
      else Some ([], it)
  end.

(** The same pass over the wrapped iterator alone. *)
Fixpoint wPass (fuel : nat) (w : W) : option (list (item V L) * W) :=
  match fuel with
  | O => None
  | S fuel =>
      let '(ok, w) := wNext w in
      if ok then
        match wPass fuel w with
        | Some (xs, w') => Some (shownBy w :: xs, w')
        | None => None
        end
      else Some ([], w)
  end.

(** What holds of a cached iterator from its creation on: [curr] is -1
    or an index of the cache, the cache fits a slice, and no error is
    recorded while the wrapped iterator is in place. *)
Definition inv (it : cachedIterator V L W) : Prop :=
  -1 ≤ curr it < len (cache it) ∧ len (cache it) ≤ MaxInt ∧
  (is_Some (wrapped it) → closeErr it = None ∧ iterErr it = None).

End Cached.

(** A wrapped iterator over a list of items, with the errors it reports
    when it is exhausted and closed. *)
Record listIter (V L : Type) := mkListIter {
  pending : list (item V L);
  shown : option (item V L);
  failure : option error;
  closeFailure : option error;
  closed : bool;
}.
Arguments mkListIter {V L}.
Arguments pending {V L}.
Arguments shown {V L}.
Arguments failure {V L}.
Arguments closeFailure {V L}.
Arguments closed {V L}.

Definition listNext {V L} (w : listIter V L) : bool * listIter V L :=
  match pending w with
  | [] => (false, mkListIter [] None (failure w) (closeFailure w) (closed w))
  | x :: rest => (true, mkListIter rest (Some x) (failure w) (closeFailure w) (closed w))
  end.

Global Instance listIter_iterator {V L} `{!Missing V L}
  : Iterator V L (listIter V L) := {|
  wNext := listNext;
  wValue := λ w, from_option itemValue zeroValue (shown w);
  wLabels := λ w, from_option itemLabels noLabels (shown w);
  wStreamHash := λ w, from_option itemStreamHash 0%N (shown w);
  wError := failure;
  wClose := λ w, (closeFailure w,
                  mkListIter (pending w) (shown w) (failure w) (closeFailure w) true);
|}.

End CachedIter.

Import CachedIter.

(** A wrapped iterator over two entries that reports an error once it
    is exhausted and another one when it is closed. *)
Module IterSamples.

Definition entry1 : item string string := mkItem "first line" "{app=a}" 11%N.
Definition entry2 : item string string := mkItem "second line" "{app=b}" 22%N.

Definition twoEntries : listIter string string :=
  mkListIter [entry1; entry2] None
    (Some (ErrNew "read failed")) (Some (ErrNew "close failed")) false.

Definition twoEntriesDone : listIter string string :=
  mkListIter [] None
    (Some (ErrNew "read failed")) (Some (ErrNew "close failed")) false.

(** [logproto.Entry{}] stands as the empty string here. *)
Global Instance entryMissing : Missing string string :=
  {| zeroValue := ""; noLabels := "" |}.

(** The cached iterator over [twoEntries] after one successful [Next]. *)
Definition afterOne : cachedIterator string string (listIter string string) :=
  mkCached [entry1]
    (Some (mkListIter [entry2] (Some entry1)
             (Some (ErrNew "read failed")) (Some (ErrNew "close failed")) false))
    0 None None.

(** The cached iterator over [twoEntries] after a complete pass. *)
Definition drained : cachedIterator string string (listIter string string) :=
  mkCached [entry1; entry2] None 1
    (Some (ErrNew "close failed")) (Some (ErrNew "read failed")).

End IterSamples.

Import IterSamples.

(** ** The counting logger

    [prometheusLogger] of the package [log]: a logger that passes each
    line on and counts it under its level in two counter vectors. *)

Module PromLog.

(** A value handed to [Log]: a level value of go-kit, which the type
    assertion [kv[i].(level.Value)] accepts, or anything else. *)
Inductive kvValue :=
| LevelValue (name : string)
| OtherValue (text : string).

(** The logger underneath, an interface value with state of its own. *)
Class InnerLogger (Lg : Type) := innerLog : Lg → list kvValue → Lg * option error.

(** A counter vector holds one count per label value. The counts of the
    library are float64 numbers that only ever grow by one, exact below
    2^53; they are natural numbers here. *)
Record prometheusLogger (Lg : Type) := mkPrometheusLogger {
  logger : Lg;
  logMessages : gmap string N;
  internalLogMessages : gmap string N;
}.
Arguments mkPrometheusLogger {Lg}.
Arguments logger {Lg}.
Arguments logMessages {Lg}.
Arguments internalLogMessages {Lg}.

(** The count under a label; a label never used counts zero. *)
Definition countOf (vec : gmap string N) (l : string) : N := default 0%N (vec !! l).

(** [vec.WithLabelValues(l)]: the counter of [l], created at zero. *)
Definition WithLabelValues (l : string) (vec : gmap string N) : gmap string N :=
  <[ l := countOf vec l ]> vec.

(** [vec.WithLabelValues(l).Inc()] *)
Definition Inc (l : string) (vec : gmap string N) : gmap string N :=
  <[ l := (countOf vec l + 1)%N ]> vec.

(** The loop of [Log]: [for i := 1; i < len(kv); i += 2], leaving at the
    first level value. The index stays far below the range of [int]: a
    slice of interface values cannot be that long. *)
Fixpoint scanLevel (kv : list kvValue) : string :=
  match kv with
  | _ :: LevelValue name :: _ => name
  | _ :: OtherValue _ :: rest => scanLevel rest
  | _ => "unknown"
  end.

Section Logger.

Context {Lg : Type} `{!InnerLogger Lg}.

Definition Log (pl : prometheusLogger Lg) (kv : list kvValue)
    : prometheusLogger Lg * option error :=
  let '(lg, _) := innerLog (logger pl) kv in
  let l := scanLevel kv in
  (mkPrometheusLogger lg (Inc l (logMessages pl)) (Inc l (internalLogMessages pl)),
   None).

(** The levels whose counters [newPrometheusLogger] creates. *)
Definition supportedLevels : list string := ["debug"; "info"; "warn"; "error"].

(** The last loop of [newPrometheusLogger], over fresh vectors. *)
Definition initialCounters (lg : Lg) : prometheusLogger Lg :=
  foldl (λ pl level,
           mkPrometheusLogger (logger pl)
             (WithLabelValues level (logMessages pl))
             (WithLabelValues level (internalLogMessages pl)))
        (mkPrometheusLogger lg ∅ ∅) supportedLevels.

(** A run of calls of [Log], one per line. *)
Definition logAll (pl : prometheusLogger Lg) (lines : list (list kvValue))
    : prometheusLogger Lg :=
  foldl (λ pl kv, (Log pl kv).1) pl lines.

End Logger.

(** The lines with a given label. *)
Definition linesAt (l : string) (lines : list (list kvValue)) : list (list kvValue) :=
  filter (λ kv, scanLevel kv = l) lines.

(** An inner logger that keeps the lines and fails on every call. *)
Global Instance failingLogger : InnerLogger (list (list kvValue)) :=
  λ lg kv, (lg ++ [kv], Some (ErrNew "write failed")).

Definition infoLine : list kvValue :=
  [OtherValue "level"; LevelValue "info"; OtherValue "msg"; OtherValue "started"].
Definition lateLevelLine : list kvValue :=
  [OtherValue "ts"; OtherValue "now"; OtherValue "level"; LevelValue "warn"].
Definition keyLevelLine : list kvValue :=
  [LevelValue "error"; OtherValue "msg"; OtherValue "oops"].

End PromLog.

Import PromLog.

(** ** Range arithmetic: proofs *)

Section RangeFacts.

Lemma getFirstLast_ranges (R : list fpRange) :
  getFirstLast R = (firstRange R, lastRange R).
Proof.
  unfold getFirstLast, firstRange, lastRange. destruct R as [|x R]; [done|].
  simpl head. simpl default at 1. f_equal.
  revert x. induction R as [|y R IH]; intros x; [done|].
  rewrite last_cons_cons. change (List.last (x :: y :: R) goZero) with (List.last (y :: R) goZero).
  apply IH.
Qed.

Lemma inGap_single b p : ¬ inGap b [p].
Proof. intros (i & q & c & _ & Hc & _). destruct i; discriminate. Qed.

Lemma inGap_nil b : ¬ inGap b [].
Proof. intros (i & q & c & Hq & _). discriminate. Qed.

Lemma inGap_cons_cons b p c R :
  inGap b (p :: c :: R) ↔
  ((maxFp p < MinFingerprint b)%N ∧ (MaxFingerprint b < minFp c)%N
   ∨ inGap b (c :: R)).
Proof.
  split.
  - intros (i & q & d & Hq & Hd & Hlt). destruct i as [|i].
    + left. simpl in Hq, Hd. by simplify_eq.
    + right. exists i, q, d. by simpl in Hq, Hd.
  - intros [Hlt | (i & q & d & Hq & Hd & Hlt)].
    + by exists 0%nat, p, c.
    + by exists (S i), q, d.
Qed.

Lemma gapScan_inGap b prev R :
  gapScan b prev R = true ↔ inGap b (prev :: R).
Proof.
  revert prev. induction R as [|fpr R IH]; intros prev; simpl.
  - split; [done|]. intros H. by apply inGap_single in H.
  - rewrite inGap_cons_cons, <- IH.
    destruct (N.ltb_spec (maxFp prev) (MinFingerprint b));
      destruct (N.ltb_spec (MaxFingerprint b) (minFp fpr)); simpl;
      split; auto; intros [[? ?]|?]; auto; lia.
Qed.

Lemma inGap_cursor b R :
  inGap b ((0%N, 0%N) :: R) → boundDisjoint b R ∨ inGap b R.
Proof.
  destruct R as [|c R]; [intros H; by apply inGap_single in H|].
  rewrite inGap_cons_cons. intros [[_ H]|H]; [left; by left | by right].
Qed.

Lemma isOutsideRange_cursor b from through R :
  isOutsideRange b from through R = true ↔
  timeDisjoint b from through ∨ boundDisjoint b R ∨ inGap b ((0%N, 0%N) :: R).
Proof.
  unfold isOutsideRange, timeDisjoint, boundDisjoint.
  rewrite getFirstLast_ranges.
  destruct (Z.ltb_spec (EndTimestamp b) from);
    destruct (Z.ltb_spec through (StartTimestamp b)); simpl; try tauto.
  destruct (N.ltb_spec (MaxFingerprint b) (minFp (firstRange R)));
    destruct (N.ltb_spec (maxFp (lastRange R)) (MinFingerprint b)); simpl; try tauto.
  rewrite gapScan_inGap. split; [tauto|].
  intros [?|[?|?]]; [lia | lia | done].
Qed.

Lemma isOutsideRange_spec b from through R :
  isOutsideRange b from through R = true ↔
  timeDisjoint b from through ∨ boundDisjoint b R ∨ inGap b R.
Proof.
  rewrite isOutsideRange_cursor. split.
  - intros [?|[?|H]]; [tauto | tauto |]. apply inGap_cursor in H. tauto.
  - intros [?|[?|(i & p & c & ? & ? & ?)]]; [tauto | tauto |].
    right; right. by exists (S i), p, c.
Qed.

End RangeFacts.

(** ** The filtering engine: proofs *)

Section FindBlocksFacts.

Lemma foldl_bind {A B C} (f : A → C → A) (g : B → list C) (l : list B) (a : A) :
  foldl (λ acc x, foldl f acc (g x)) a l = foldl f a (l ≫= g).
Proof.
  revert a. induction l as [|x l IH]; intros a; [done|].
  rewrite bind_cons, foldl_app. apply IH.
Qed.

Lemma elem_of_foldl_paths (acc : gset string) (l : list BlockRef) (p : string) :
  p ∈ foldl (λ acc t, {[ BlockPath t ]} ∪ acc) acc l ↔
  p ∈ acc ∨ ∃ t, t ∈ l ∧ BlockPath t = p.
Proof.
  revert acc. induction l as [|t l IH]; intros acc; simpl.
  - split; [by left|]. intros [?|(t & Ht & _)]; [done|]. by apply not_elem_of_nil in Ht.
  - rewrite IH, elem_of_union, elem_of_singleton. split.
    + intros [[->|?]|(t' & ? & ?)]; [right; exists t | by left | right; exists t'];
        split; try done; by constructor.
    + intros [?|(t' & [->|?]%elem_of_cons & ?)]; [by left; right | by left; left |].
      right. by exists t'.
Qed.

Lemma elem_of_outdatedBlocksOf (metas : list Meta) (p : string) :
  p ∈ outdatedBlocksOf metas ↔ tombstoned metas p.
Proof.
  unfold outdatedBlocksOf, tombstoned.
  rewrite (foldl_bind (λ acc t, {[ BlockPath t ]} ∪ acc) Tombstones), elem_of_foldl_paths.
  split.
  - intros [H|(t & (meta & ? & ?)%list_elem_of_bind & ?)]; [by apply not_elem_of_empty in H|].
    by exists meta, t.
  - intros (meta & t & ? & ? & ?). right. exists t. split; [|done].
    apply list_elem_of_bind. by exists meta.
Qed.

Lemma foldl_visitBlock od from through R (m : gmap string BlockRef) (l : list BlockRef) :
  foldl (visitBlock od from through R) m l =
  foldl (λ m b, <[ BlockPath b := b ]> m) m
        (filter (λ b, (BlockPath b ∉ od) ∧ isOutsideRange b from through R = false) l).
Proof.
  revert m. induction l as [|b l IH]; intros m; [done|].
  rewrite filter_cons. simpl foldl at 1. rewrite IH. unfold visitBlock.
  destruct (decide (BlockPath b ∈ od)) as [Hin|Hout].
  - rewrite decide_False; [done|]. by intros [? _].
  - destruct (isOutsideRange b from through R) eqn:Hr.
    + rewrite decide_False; [done|]. by intros [_ ?].
    + by rewrite decide_True.
Qed.

Lemma lookup_foldl_insert (m : gmap string BlockRef) (l : list BlockRef) (p : string) :
  foldl (λ m b, <[ BlockPath b := b ]> m) m l !! p =
  match last (withPath p l) with
  | Some b => Some b
  | None => m !! p
  end.
Proof.
  unfold withPath. induction l as [|x l IH] using rev_ind; [done|].
  rewrite foldl_app, filter_app. simpl foldl. rewrite lookup_insert.
  rewrite filter_cons, filter_nil. destruct (decide (BlockPath x = p)) as [Heq|Hne].
  - by rewrite last_snoc.
  - by rewrite app_nil_r.
Qed.

Lemma blocksSetOf_lookup metas from through R (p : string) :
  blocksSetOf metas from through R !! p =
  last (withPath p (discovered metas from through R)).
Proof.
  unfold blocksSetOf, discovered, walk, active.
  rewrite (foldl_bind (visitBlock _ from through R) Blocks).
  rewrite foldl_visitBlock, lookup_foldl_insert, lookup_empty.
  by destruct (last _).
Qed.

Lemma blocksSetOf_path metas from through R (p : string) (b : BlockRef) :
  blocksSetOf metas from through R !! p = Some b → BlockPath b = p.
Proof.
  rewrite blocksSetOf_lookup. intros H%last_Some_elem_of.
  by apply list_elem_of_filter in H as [? _].
Qed.

Lemma elem_of_findBlocks o metas from through R (b : BlockRef) :
  b ∈ findBlocks o metas from through R ↔
  blocksSetOf metas from through R !! BlockPath b = Some b.
Proof.
  unfold findBlocks. rewrite list_elem_of_fmap. split.
  - intros ([p b'] & -> & Hin). simpl.
    rewrite (rangeOver_perm o) in Hin. apply elem_of_map_to_list in Hin.
    by rewrite (blocksSetOf_path _ _ _ _ _ _ Hin).
  - intros H. exists (BlockPath b, b). split; [done|].
    rewrite (rangeOver_perm o). by apply elem_of_map_to_list.
Qed.

Lemma findBlocks_paths o metas from through R :
  BlockPath <$> findBlocks o metas from through R =
  (rangeOver o (blocksSetOf metas from through R)).*1.
Proof.
  unfold findBlocks. rewrite <- list_fmap_compose.
  apply Forall_fmap_ext_1, Forall_forall. intros [p b] Hin. simpl.
  rewrite (rangeOver_perm o) in Hin. apply elem_of_map_to_list in Hin.
  by apply blocksSetOf_path in Hin.
Qed.

Lemma findBlocks_NoDup_paths o metas from through R :
  NoDup (BlockPath <$> findBlocks o metas from through R).
Proof.
  rewrite findBlocks_paths, (rangeOver_perm o). apply NoDup_fst_map_to_list.
Qed.

Lemma elem_of_findBlocks_last o metas from through R (b : BlockRef) :
  b ∈ findBlocks o metas from through R ↔
  last (withPath (BlockPath b) (discovered metas from through R)) = Some b.
Proof. by rewrite elem_of_findBlocks, blocksSetOf_lookup. Qed.

Lemma findBlocks_discovered o metas from through R (b : BlockRef) :
  b ∈ findBlocks o metas from through R → b ∈ discovered metas from through R.
Proof.
  rewrite elem_of_findBlocks_last. intros H%last_Some_elem_of.
  by apply list_elem_of_filter in H as [_ ?].
Qed.

End FindBlocksFacts.

(** ** The stable sort: proofs *)

Section SortFacts.

Lemma cmpMinFingerprint_neg (a b : BlockRef) :
  (cmpMinFingerprint a b <? 0) = (MinFingerprint a <? MinFingerprint b)%N.
Proof.
  unfold cmpMinFingerprint.
  destruct (N.ltb_spec (MinFingerprint a) (MinFingerprint b)); [done|].
  by destruct (N.ltb_spec (MinFingerprint b) (MinFingerprint a)).
Qed.

Lemma sinkLeft_perm {E} (cmp : E → E → Z) (x : E) (acc : list E) :
  sinkLeft cmp x acc ≡ₚ x :: acc.
Proof.
  induction acc as [|y acc IH]; simpl; [done|].
  destruct (cmp x y <? 0); [|done].
  by rewrite IH, (Permutation_swap x y).
Qed.

Lemma SortStableFunc_perm {E} (cmp : E → E → Z) (l : list E) :
  SortStableFunc cmp l ≡ₚ l.
Proof.
  unfold SortStableFunc. rewrite reverse_Permutation.
  assert (∀ acc, foldl (λ p x, sinkLeft cmp x p) acc l ≡ₚ l ++ acc) as H.
  { induction l as [|x l IH]; intros acc; simpl; [done|].
    by rewrite IH, sinkLeft_perm, Permutation_middle. }
  by rewrite H, app_nil_r.
Qed.

Lemma sinkLeft_sorted (x : BlockRef) (acc : list BlockRef) :
  StronglySorted (flip byMinFp) acc →
  StronglySorted (flip byMinFp) (sinkLeft cmpMinFingerprint x acc).
Proof.
  induction acc as [|y acc IH]; simpl; intros Hs.
  - by repeat constructor.
  - apply StronglySorted_cons in Hs as [Hy Hs]. rewrite cmpMinFingerprint_neg.
    destruct (N.ltb_spec (MinFingerprint x) (MinFingerprint y)) as [Hlt|Hge].
    + apply StronglySorted_cons. split; [|by apply IH].
      rewrite sinkLeft_perm. constructor; [|done].
      unfold flip, byMinFp. lia.
    + apply StronglySorted_cons. split; [|by apply StronglySorted_cons].
      constructor; [done|]. eapply Forall_impl; [exact Hy|].
      unfold flip, byMinFp. intros z ?. lia.
Qed.

Lemma StronglySorted_flip_reverse {A} (R : relation A) (l : list A) :
  StronglySorted (flip R) l → StronglySorted R (reverse l).
Proof.
  induction 1 as [|x l Hs IH Hx]; [constructor|].
  rewrite reverse_cons. apply StronglySorted_app_2; [|done|by repeat constructor].
  intros x1 x2 Hx1 ->%list_elem_of_singleton.
  rewrite elem_of_reverse in Hx1. rewrite Forall_forall in Hx. exact (Hx x1 Hx1).
Qed.

Lemma SortStableFunc_sorted (l : list BlockRef) :
  StronglySorted byMinFp (SortStableFunc cmpMinFingerprint l).
Proof.
  unfold SortStableFunc. apply StronglySorted_flip_reverse.
  assert (∀ acc, StronglySorted (flip byMinFp) acc →
    StronglySorted (flip byMinFp)
      (foldl (λ p x, sinkLeft cmpMinFingerprint x p) acc l)) as H.
  { induction l as [|x l IH]; intros acc Hacc; simpl; [done|].
    by apply IH, sinkLeft_sorted. }
  apply H. constructor.
Qed.

Lemma withMinFp_sinkLeft (k : N) (x : BlockRef) (acc : list BlockRef) :
  withMinFp k (sinkLeft cmpMinFingerprint x acc) = withMinFp k (x :: acc).
Proof.
  unfold withMinFp. induction acc as [|y acc IH]; simpl; [done|].
  rewrite cmpMinFingerprint_neg.
  destruct (N.ltb_spec (MinFingerprint x) (MinFingerprint y)) as [Hlt|Hge]; [|done].
  rewrite (filter_cons _ y), IH, !filter_cons.
  repeat case_decide; try done; lia.
Qed.

Lemma SortStableFunc_stable (l : list BlockRef) :
  tiesOrderedAs l (SortStableFunc cmpMinFingerprint l).
Proof.
  intros k. unfold SortStableFunc, withMinFp. rewrite filter_reverse.
  assert (∀ acc,
    filter (λ b, MinFingerprint b = k)
      (foldl (λ p x, sinkLeft cmpMinFingerprint x p) acc l) =
    reverse (filter (λ b, MinFingerprint b = k) l) ++
    filter (λ b, MinFingerprint b = k) acc) as H.
  { induction l as [|x l IH]; intros acc; simpl; [done|].
    rewrite IH. pose proof (withMinFp_sinkLeft k x acc) as Hx.
    unfold withMinFp in Hx. rewrite Hx, !filter_cons.
    case_decide; [|done]. by rewrite reverse_cons, <- app_assoc. }
  by rewrite H, filter_nil, app_nil_r, reverse_involutive.
Qed.

End SortFacts.

(** ** Fetch orchestration: proofs *)

Section FetchFacts.

Context {St : Type} (callback : ForEachBlockCallback St).

Lemma wrapInt_small (z : Z) : - 2 ^ 63 ≤ z ≤ MaxInt → wrapInt z = z.
Proof.
  unfold wrapInt, MaxInt. intros H.
  rewrite Z.mod_small; lia.
Qed.

Lemma after_nil (r : run St) : after [] r = r.
Proof. by destruct r. Qed.

Lemma after_after (a b : list action) (r : run St) :
  after a (after b r) = after (a ++ b) r.
Proof. unfold after; simpl. by rewrite app_assoc. Qed.

Lemma handled_cons b bs : handled (b :: bs) = ACallback b :: AClose b :: handled bs.
Proof. done. Qed.

Lemma handled_app bs1 bs2 : handled (bs1 ++ bs2) = handled bs1 ++ handled bs2.
Proof. unfold handled. apply bind_app. Qed.

Lemma callbacksOf_handled bs : callbacksOf (handled bs) = bs.
Proof. induction bs as [|b bs IH]; [done|]. rewrite handled_cons. simpl. by rewrite IH. Qed.

Lemma closesOf_handled bs : closesOf (handled bs) = bs.
Proof. induction bs as [|b bs IH]; [done|]. rewrite handled_cons. simpl. by rewrite IH. Qed.

Lemma callbacksOf_finish tr o : callbacksOf (tr ++ finish o) = callbacksOf tr.
Proof.
  unfold callbacksOf. rewrite omap_app.
  destruct o; simpl; by rewrite app_nil_r.
Qed.

Lemma closesOf_finish tr o : closesOf (tr ++ finish o) = closesOf tr.
Proof.
  unfold closesOf. rewrite omap_app.
  destruct o; simpl; by rewrite app_nil_r.
Qed.

Lemma deliveries_app evs1 evs2 :
  deliveries (evs1 ++ evs2) = deliveries evs1 ++ deliveries evs2.
Proof. unfold deliveries. apply omap_app. Qed.

Lemma deliveries_ResRecv bs : deliveries (ResRecv <$> bs) = bs.
Proof. induction bs as [|b bs IH]; [done|]. unfold deliveries in *. simpl. by f_equal. Qed.

(** One iteration of the loop on a received block. *)
Lemma fetchLoop_ResRecv (s : St) (n : Z) (b : blockWithQuerier) (rest : list event) :
  fetchLoop callback s n (ResRecv b :: rest) =
  match (invoke callback s b).2 with
  | CbNil =>
      if wrapInt (n - 1) =? 0
      then mkRun (Returned None) (handled [b]) (invoke callback s b).1 (wrapInt (n - 1)) rest
      else after (handled [b])
             (fetchLoop callback (invoke callback s b).1 (wrapInt (n - 1)) rest)
  | CbErr e =>
      mkRun (Returned (Some (ErrWrap ("error running callback function for block "
                                        +:+ BlockPath (bwqRef b) +:+ " err: ") e)))
            (handled [b]) (invoke callback s b).1 n rest
  | CbPanic v => mkRun (Panicked v) (handled [b]) (invoke callback s b).1 n rest
  end.
Proof.
  simpl. unfold runCallback. destruct (invoke callback s b) as [s' [|e|v]]; done.
Qed.

Lemma fetchLoop_used (events : list event) (s : St) (n : Z) :
  ∃ used, events = used ++ runUnread (fetchLoop callback s n events) ∧
          runTrace (fetchLoop callback s n events) = handled (deliveries used).
Proof.
  revert s n. induction events as [|ev rest IH]; intros s n.
  - by exists [].
  - destruct ev as [err|err|b].
    + by exists [CtxDone err].
    + by exists [ErrRecv err].
    + rewrite fetchLoop_ResRecv. destruct (invoke callback s b) as [s' [|e|v]]; simpl.
      * destruct (wrapInt (n - 1) =? 0); [by exists [ResRecv b]|].
        destruct (IH s' (wrapInt (n - 1))) as (used & Hu & Ht).
        exists (ResRecv b :: used). simpl. split; [by rewrite <- Hu|by rewrite Ht].
      * by exists [ResRecv b].
      * by exists [ResRecv b].
Qed.

Lemma fetchLoop_app (pre rest : list event) (s : St) (n : Z) :
  runOutcome (fetchLoop callback s n pre) = Waiting →
  fetchLoop callback s n (pre ++ rest) =
  after (runTrace (fetchLoop callback s n pre))
        (fetchLoop callback (runState (fetchLoop callback s n pre))
                   (runRemaining (fetchLoop callback s n pre)) rest).
Proof.
  revert s n. induction pre as [|ev pre IH]; intros s n.
  - intros _. simpl. by rewrite after_nil.
  - destruct ev as [err|err|b]; [done|done|].
    rewrite <- app_comm_cons, !fetchLoop_ResRecv.
    destruct (invoke callback s b) as [s' [|e|v]]; simpl; [|done|done].
    destruct (wrapInt (n - 1) =? 0); [done|]. simpl. intros Hw.
    by rewrite (IH _ _ Hw), after_after.
Qed.

Lemma fetchLoop_waiting (events : list event) (s : St) (n : Z) :
  runOutcome (fetchLoop callback s n events) = Waiting →
  runUnread (fetchLoop callback s n events) = [] ∧
  ∃ bs, events = ResRecv <$> bs ∧ allNil callback s bs ∧
        runTrace (fetchLoop callback s n events) = handled bs.
Proof.
  revert s n. induction events as [|ev rest IH]; intros s n.
  - intros _. split; [done|]. by exists [].
  - destruct ev as [err|err|b]; [done|done|].
    rewrite fetchLoop_ResRecv.
    destruct (invoke callback s b) as [s' [|e|v]] eqn:Hinv; simpl; [|done|done].
    destruct (wrapInt (n - 1) =? 0); [done|]. simpl. intros Hw.
    destruct (IH _ _ Hw) as (Hu & bs & -> & Hnil & Ht). split; [done|].
    exists (b :: bs). rewrite Ht. repeat split; simpl; by rewrite ?Hinv.
Qed.

Lemma fetchLoop_keeps_waiting (bs : list blockWithQuerier) (s : St) (n : Z) :
  n ≤ MaxInt → len bs < n → allNil callback s bs →
  runOutcome (fetchLoop callback s n (ResRecv <$> bs)) = Waiting.
Proof.
  revert s n. induction bs as [|b bs IH]; intros s n Hmax Hlen Hnil; [done|].
  rewrite fmap_cons, fetchLoop_ResRecv. destruct Hnil as [-> Hnil].
  unfold len in *. rewrite length_cons in Hlen.
  rewrite wrapInt_small by (unfold MaxInt in *; lia).
  destruct (Z.eqb_spec (n - 1) 0); [lia|]. simpl. apply IH; [lia|lia|done].
Qed.

Lemma fetchLoop_all_delivered (bs : list blockWithQuerier) (s : St) (n : Z) :
  1 ≤ n → n ≤ MaxInt → len bs = n → allNil callback s bs →
  runOutcome (fetchLoop callback s n (ResRecv <$> bs)) = Returned None ∧
  runTrace (fetchLoop callback s n (ResRecv <$> bs)) = handled bs ∧
  runUnread (fetchLoop callback s n (ResRecv <$> bs)) = [].
Proof.
  revert s n. induction bs as [|b bs IH]; intros s n Hn Hmax Hlen Hnil.
  - unfold len in Hlen. simpl in Hlen. lia.
  - rewrite fmap_cons, fetchLoop_ResRecv. destruct Hnil as [-> Hnil].
    unfold len in *. rewrite length_cons in Hlen.
    rewrite wrapInt_small by (unfold MaxInt in *; lia).
    destruct (Z.eqb_spec (n - 1) 0) as [Hz|Hnz]; simpl.
    + destruct bs; [done|]. simpl in Hlen. lia.
    + destruct (IH (invoke callback s b).1 (n - 1)) as (Ho & Ht & Hu); [lia..|done|].
      by rewrite Ho, Ht, Hu.
Qed.

Lemma fetchLoop_nil_inv (events : list event) (s : St) (n : Z) :
  n ≤ MaxInt → - 2 ^ 63 ≤ n - len events →
  runOutcome (fetchLoop callback s n events) = Returned None →
  1 ≤ n ∧
  ∃ bs, events = (ResRecv <$> bs) ++ runUnread (fetchLoop callback s n events) ∧
        len bs = n ∧ allNil callback s bs ∧
        runTrace (fetchLoop callback s n events) = handled bs.
Proof.
  revert s n. induction events as [|ev rest IH]; intros s n Hmax Hmin; [done|].
  destruct ev as [err|err|b]; [done|done|].
  rewrite fetchLoop_ResRecv.
  destruct (invoke callback s b) as [s' [|e|v]] eqn:Hinv; simpl; [|done|done].
  unfold len in *. rewrite length_cons in Hmin.
  rewrite wrapInt_small by (unfold MaxInt in *; lia).
  destruct (Z.eqb_spec (n - 1) 0) as [Hz|Hnz]; simpl.
  - intros _. split; [lia|]. exists [b]. simpl. rewrite Hinv. repeat split; try done. lia.
  - intros Ho. destruct (IH s' (n - 1)) as (Hn & bs & Hev & Hlen & Hnil & Ht); [lia|lia|done|].
    split; [lia|]. exists (b :: bs). simpl. rewrite Hinv, Ht.
    repeat split; try done; [f_equal; exact Hev | lia].
Qed.

Lemma fetchLoop_stop (ev : event) (post : list event) (s : St) (n : Z) (err : error) :
  stopError callback s ev = Some err →
  runOutcome (fetchLoop callback s n (ev :: post)) = Returned (Some err) ∧
  runTrace (fetchLoop callback s n (ev :: post)) = handled (deliveries [ev]) ∧
  runUnread (fetchLoop callback s n (ev :: post)) = post.
Proof.
  destruct ev as [e|e|b]; simpl stopError.
  - by intros [= <-].
  - by intros [= <-].
  - rewrite fetchLoop_ResRecv.
    destruct (invoke callback s b) as [s' [|e|v]]; simpl; [done| |done].
    by intros [= <-].
Qed.

Lemma fetchLoop_err_inv (events : list event) (s : St) (n : Z) (err : error) :
  runOutcome (fetchLoop callback s n events) = Returned (Some err) →
  ∃ pre ev,
    events = pre ++ ev :: runUnread (fetchLoop callback s n events) ∧
    runOutcome (fetchLoop callback s n pre) = Waiting ∧
    stopError callback (runState (fetchLoop callback s n pre)) ev = Some err ∧
    runTrace (fetchLoop callback s n events) = handled (deliveries (pre ++ [ev])).
Proof.
  revert s n. induction events as [|ev rest IH]; intros s n; [done|].
  destruct ev as [e|e|b].
  - intros [= <-]. by exists [], (CtxDone e).
  - intros [= <-]. by exists [], (ErrRecv e).
  - rewrite fetchLoop_ResRecv.
    destruct (invoke callback s b) as [s' [|e|v]] eqn:Hinv; simpl; [| |done].
    + destruct (wrapInt (n - 1) =? 0) eqn:Hz; [done|]. simpl. intros Ho.
      destruct (IH _ _ Ho) as (pre & ev & Hev & Hw & Hstop & Ht).
      exists (ResRecv b :: pre), ev.
      rewrite <- !app_comm_cons, !fetchLoop_ResRecv, Hinv, Hz. simpl.
      rewrite Ht. repeat split; try done. by rewrite <- Hev.
    + intros [= <-]. exists [], (ResRecv b). simpl. by rewrite Hinv.
Qed.

End FetchFacts.

(** ** The properties of the filtering engine *)

Section FilterClaims.

Lemma shards_ascending : ascending shards.
Proof.
  split; [repeat constructor; simpl; lia|].
  intros [|[|i]] p c Hp Hc; simpl in *; simplify_eq; simpl; lia.
Qed.

(** C1. For every block, window and ascending non-overlapping range
    sequence R, [isOutsideRange] is true exactly when the time interval
    of the block misses the window, or its fingerprint interval misses
    the overall bound of R, or its fingerprint interval lies strictly
    inside a gap between two consecutive elements of R. The same holds
    with the gaps of the scan, whose cursor starts at [0,0], and for
    that form R need not be ascending. With the shard ranges
    [[0,10],[20,30]] a block with fingerprints [11,19] is excluded and
    a block with [5,25] whose time interval meets the window is not. *)
Theorem C1_isOutsideRange_iff :
  (∀ b from through R, ascending R →
     (isOutsideRange b from through R = true ↔
      timeDisjoint b from through ∨ boundDisjoint b R ∨ inGap b R)) ∧
  (∀ b from through R,
     isOutsideRange b from through R = true ↔
     timeDisjoint b from through ∨ boundDisjoint b R ∨ inGap b ((0%N, 0%N) :: R)) ∧
  (∀ path st en from through,
     isOutsideRange (mkBlockRef path 11 19 st en) from through shards = true) ∧
  (∀ path st en from through, from ≤ en → st ≤ through →
     isOutsideRange (mkBlockRef path 5 25 st en) from through shards = false).
Proof.
  split; [|split; [|split]].
  - intros b from through R _. apply isOutsideRange_spec.
  - apply isOutsideRange_cursor.
  - intros path st en from through. unfold isOutsideRange. simpl.
    by destruct (_ || _).
  - intros path st en from through H1 H2. unfold isOutsideRange. simpl.
    destruct (Z.ltb_spec en from); [lia|].
    destruct (Z.ltb_spec through st); [lia|]. done.
Qed.

Lemma C1_isOutsideRange_iff_witness :
  (isOutsideRange blockA 0 10 shards = true ↔
   timeDisjoint blockA 0 10 ∨ boundDisjoint blockA shards ∨ inGap blockA shards) ∧
  isOutsideRange (mkBlockRef "x" 5 25 0 10) 0 10 shards = false.
Proof.
  split.
  - apply (proj1 C1_isOutsideRange_iff blockA 0 10 shards shards_ascending).
  - apply (proj2 (proj2 (proj2 C1_isOutsideRange_iff)) "x" 0 10 0 10); lia.
Defined.

(** C9. With an empty range sequence [getFirstLast] yields the zero
    range [0,0] for both bounds, so [isOutsideRange] is true for every
    block whose [MinFingerprint] is above 0, whatever its time interval;
    a block survives only with [MinFingerprint] 0, and does so when its
    time interval meets the window. Hence [findBlocks] and
    [getActiveBlockRefs] return only blocks with [MinFingerprint] 0. *)
Theorem C9_empty_ranges :
  getFirstLast ([] : list fpRange) = ((0%N, 0%N), (0%N, 0%N)) ∧
  (∀ b from through,
     (0 < MinFingerprint b)%N → isOutsideRange b from through [] = true) ∧
  (∀ b from through,
     isOutsideRange b from through [] = false → MinFingerprint b = 0%N) ∧
  (∀ b from through,
     MinFingerprint b = 0%N → from ≤ EndTimestamp b → StartTimestamp b ≤ through →
     isOutsideRange b from through [] = false) ∧
  (∀ o metas from through b,
     b ∈ findBlocks o metas from through [] → MinFingerprint b = 0%N) ∧
  (∀ (store : Client) o tenantID from through b,
     b ∈ (getActiveBlockRefs o tenantID from through []).1 → MinFingerprint b = 0%N).
Proof.
  assert (∀ b from through,
    isOutsideRange b from through [] = false → MinFingerprint b = 0%N) as Hzero.
  { intros b from through. unfold isOutsideRange. simpl.
    destruct (_ || _); [done|]. unfold maxFp. simpl.
    destruct (MaxFingerprint b <? 0)%N; simpl; [done|].
    destruct (N.ltb_spec 0 (MinFingerprint b)); [done|]. lia. }
  assert (∀ o metas from through b,
    b ∈ findBlocks o metas from through [] → MinFingerprint b = 0%N) as Hfind.
  { intros o metas from through b Hin%findBlocks_discovered.
    apply list_elem_of_filter in Hin as [[_ Hin] _]. by eapply Hzero. }
  split; [done|]. split; [|split; [done|split; [|split; [done|]]]].
  - intros b from through Hpos.
    destruct (isOutsideRange b from through []) eqn:Hr; [done|].
    apply Hzero in Hr. lia.
  - intros b from through Hb H1 H2. unfold isOutsideRange. simpl.
    destruct (Z.ltb_spec (EndTimestamp b) from); [lia|].
    destruct (Z.ltb_spec through (StartTimestamp b)); [lia|].
    unfold maxFp. simpl. rewrite Hb.
    destruct (N.ltb_spec (MaxFingerprint b) 0); [lia|done].
  - intros store o tenantID from through b. unfold getActiveBlockRefs.
    destruct (GetMetas _) as [metas [e|]]; simpl.
    + by intros ?%not_elem_of_nil.
    + rewrite SortStableFunc_perm. apply Hfind.
Qed.

Lemma C9_empty_ranges_witness :
  isOutsideRange blockA 0 10 [] = true ∧
  MinFingerprint blockZ = 0%N ∧
  isOutsideRange blockZ 0 10 [] = false ∧
  MinFingerprint blockZ = 0%N ∧
  MinFingerprint blockZ = 0%N.
Proof.
  destruct C9_empty_ranges as (_ & Hpos & Hzero & Hin & Hfind & Hactive).
  split; [|split; [|split; [|split]]].
  - apply (Hpos blockA 0 10). reflexivity.
  - apply (Hzero blockZ 0 10). reflexivity.
  - apply (Hin blockZ 0 10); [reflexivity | simpl; lia | simpl; lia].
  - apply (Hfind listOrder [mkMeta [] [blockA; blockZ]] 0 10 blockZ).
    apply elem_of_findBlocks_last. reflexivity.
  - apply (Hactive (storeOf [mkMeta [] [blockA; blockZ]]) listOrder "tenant" 0 10 blockZ).
    vm_compute. left.
Defined.

(** C2. A path that occurs among the tombstones of any meta is the path
    of no block in the result of [findBlocks], also when a meta lists
    it among its blocks. With one meta listing a block and another meta
    holding a tombstone of the same path, the result is empty. *)
Theorem C2_tombstoned_excluded :
  (∀ o metas from through R path,
     tombstoned metas path →
     ∀ b, b ∈ findBlocks o metas from through R → BlockPath b ≠ path) ∧
  (∀ o from through R x t,
     BlockPath t = BlockPath x →
     findBlocks o [mkMeta [] [x]; mkMeta [t] []] from through R = []).
Proof.
  assert (∀ o metas from through R path,
     tombstoned metas path →
     ∀ b, b ∈ findBlocks o metas from through R → BlockPath b ≠ path) as Hgen.
  { intros o metas from through R path Ht b Hin%findBlocks_discovered <-.
    apply list_elem_of_filter in Hin as [[Hout _] _].
    by apply Hout, elem_of_outdatedBlocksOf. }
  split; [done|].
  intros o from through R x t Hpath.
  destruct (findBlocks o _ from through R) as [|b l] eqn:Hres; [done|].
  assert (b ∈ findBlocks o [mkMeta [] [x]; mkMeta [t] []] from through R) as Hin
    by (rewrite Hres; left).
  exfalso. eapply (Hgen _ _ _ _ _ (BlockPath x)); [|exact Hin|].
  - exists (mkMeta [t] []), t. repeat split; [by right; left | by left | done].
  - apply findBlocks_discovered, list_elem_of_filter in Hin as [_ Hin].
    unfold walk in Hin. simpl in Hin.
    by apply list_elem_of_singleton in Hin as ->.
Qed.

Lemma C2_tombstoned_excluded_witness :
  BlockPath blockB ≠ "a" ∧
  findBlocks listOrder [mkMeta [] [blockA]; mkMeta [blockA] []] 0 10 wide = [].
Proof.
  split.
  - apply (proj1 C2_tombstoned_excluded listOrder
             [mkMeta [blockA] [blockA; blockB]] 0 10 wide "a").
    + exists (mkMeta [blockA] [blockA; blockB]), blockA.
      repeat split; by left.
    + apply elem_of_findBlocks_last. reflexivity.
  - apply (proj2 C2_tombstoned_excluded listOrder 0 10 wide blockA blockA).
    reflexivity.
Defined.

(** C10. Every block in the result of [findBlocks] is, field for field,
    an element of the [Blocks] of one of the input metas; its path is
    the path of no tombstone of any input meta; and [isOutsideRange] is
    false for it with the given window and ranges. *)
Theorem C10_findBlocks_sound :
  ∀ o metas from through R b,
    b ∈ findBlocks o metas from through R →
    (∃ meta, meta ∈ metas ∧ b ∈ Blocks meta) ∧
    (∀ meta t, meta ∈ metas → t ∈ Tombstones meta → BlockPath t ≠ BlockPath b) ∧
    isOutsideRange b from through R = false.
Proof.
  intros o metas from through R b Hin%findBlocks_discovered.
  apply list_elem_of_filter in Hin as [[Hout Hr] Hw].
  split; [|split; [|done]].
  - unfold walk in Hw. apply list_elem_of_bind in Hw as (meta & ? & ?). by exists meta.
  - intros meta t Hm Ht Heq. apply Hout, elem_of_outdatedBlocksOf.
    by exists meta, t.
Qed.

Lemma C10_findBlocks_sound_witness :
  (∃ meta, meta ∈ [mkMeta [blockC] [blockA; blockB]] ∧ blockA ∈ Blocks meta) ∧
  (∀ meta t, meta ∈ [mkMeta [blockC] [blockA; blockB]] → t ∈ Tombstones meta →
             BlockPath t ≠ BlockPath blockA) ∧
  isOutsideRange blockA 0 10 wide = false.
Proof.
  apply (C10_findBlocks_sound listOrder [mkMeta [blockC] [blockA; blockB]] 0 10 wide blockA).
  apply elem_of_findBlocks_last. reflexivity.
Defined.

Lemma withPath_absent (l : list BlockRef) (path : string) :
  (∀ x, x ∈ l → BlockPath x ≠ path) → withPath path l = [].
Proof.
  intros Hall. destruct (withPath path l) as [|y k] eqn:Hw; [done|].
  assert (y ∈ withPath path l) as Hy by (rewrite Hw; left).
  apply list_elem_of_filter in Hy as [Hp Hy]. by apply Hall in Hy.
Qed.

Lemma withPath_NoDup (l : list BlockRef) (x : BlockRef) :
  NoDup (BlockPath <$> l) → x ∈ l → withPath (BlockPath x) l = [x].
Proof.
  unfold withPath. induction l as [|y l IH]; intros Hnd Hin.
  - by apply not_elem_of_nil in Hin.
  - rewrite fmap_cons in Hnd. apply NoDup_cons in Hnd as [Hy Hnd].
    rewrite filter_cons. apply elem_of_cons in Hin as [->|Hin].
    + rewrite decide_True by done. f_equal.
      apply withPath_absent. intros z Hz Heq. apply Hy.
      rewrite <- Heq. by apply list_elem_of_fmap_2.
    + rewrite decide_False; [by apply IH|].
      intros Heq. apply Hy. rewrite Heq. by apply list_elem_of_fmap_2.
Qed.





End FilterClaims.

(** ** The properties of the resolution *)

Section ResolveClaims.

(** C7, as the code has it. The list returned by [getActiveBlockRefs]
    is sorted ascending by [MinFingerprint] and holds the blocks that
    [findBlocks] returned; the sort is stable and has no second key, so
    blocks with equal [MinFingerprint] keep the order in which
    [findBlocks] returned them, which is the order of iterating a map. *)
Theorem C7_sorted_stable :
  (∀ (store : Client) o tenantID from through R,
     StronglySorted byMinFp (getActiveBlockRefs o tenantID from through R).1) ∧
  (∀ (store : Client) o tenantID from through R metas,
     GetMetas (searchParams tenantID from through R) = (metas, None) →
     ∃ out,
       getActiveBlockRefs o tenantID from through R = (out, None) ∧
       StronglySorted byMinFp out ∧
       out ≡ₚ findBlocks o metas from through R ∧
       tiesOrderedAs (findBlocks o metas from through R) out).
Proof.
  split.
  - intros store o tenantID from through R. unfold getActiveBlockRefs.
    destruct (GetMetas _) as [metas [e|]]; simpl; [constructor|].
    apply SortStableFunc_sorted.
  - intros store o tenantID from through R metas Hm.
    exists (SortStableFunc cmpMinFingerprint (findBlocks o metas from through R)).
    unfold getActiveBlockRefs. rewrite Hm.
    split; [done|]. split; [apply SortStableFunc_sorted|].
    split; [apply SortStableFunc_perm | apply SortStableFunc_stable].
Qed.

Lemma C7_sorted_stable_witness :
  ∃ out,
    getActiveBlockRefs (H := storeOf [mkMeta [] [blockB; blockC; blockA]])
      listOrder "tenant" 0 10 wide = (out, None) ∧
    StronglySorted byMinFp out ∧
    out ≡ₚ findBlocks listOrder [mkMeta [] [blockB; blockC; blockA]] 0 10 wide ∧
    tiesOrderedAs (findBlocks listOrder [mkMeta [] [blockB; blockC; blockA]] 0 10 wide) out.
Proof.
  apply (proj2 C7_sorted_stable (storeOf [mkMeta [] [blockB; blockC; blockA]])
           listOrder "tenant" 0 10 wide [mkMeta [] [blockB; blockC; blockA]]).
  reflexivity.
Defined.

(** C7, as stated: blocks with equal [MinFingerprint] would keep the
    order in which the walk over the metas discovered them. The meta
    lists "b" before "a", both with [MinFingerprint] 7; the map yields
    "a" first and the stable sort keeps that. *)
Lemma C7_discovery_order_lost :
  ¬ tiesOrderedAs
      (discovered [mkMeta [] [blockB; blockA]] 0 10 wide)
      (getActiveBlockRefs (H := storeOf [mkMeta [] [blockB; blockA]])
         listOrder "tenant" 0 10 wide).1.
Proof.
  intros H. specialize (H 7%N). vm_compute in H. discriminate.
Qed.

(** Whatever order the map is iterated in, it is the same for the metas
    listing "a" before "b" and for those listing "b" before "a": the
    discovery order cannot be kept for both. *)
Lemma discovery_order_not_kept (o : MapOrder) :
  ¬ (tiesOrderedAs
       (discovered [mkMeta [] [blockA; blockB]] 0 10 wide)
       (findBlocks o [mkMeta [] [blockA; blockB]] 0 10 wide) ∧
     tiesOrderedAs
       (discovered [mkMeta [] [blockB; blockA]] 0 10 wide)
       (findBlocks o [mkMeta [] [blockB; blockA]] 0 10 wide)).
Proof.
  intros [H1 H2]. specialize (H1 7%N). specialize (H2 7%N).
  unfold findBlocks in H1, H2.
  assert (blocksSetOf [mkMeta [] [blockB; blockA]] 0 10 wide =
          blocksSetOf [mkMeta [] [blockA; blockB]] 0 10 wide) as Heq
    by (vm_compute; reflexivity).
  rewrite Heq, H1 in H2. vm_compute in H2. discriminate.
Qed.

(** The result does depend on the order of the map: the two sample
    orders return the tied blocks "a" and "b" in different orders. *)
Example ties_follow_map_order :
  (getActiveBlockRefs (H := storeOf [mkMeta [] [blockA; blockB]])
     listOrder "tenant" 0 10 wide).1 = [blockA; blockB] ∧
  (getActiveBlockRefs (H := storeOf [mkMeta [] [blockA; blockB]])
     reverseOrder "tenant" 0 10 wide).1 = [blockB; blockA].
Proof. split; reflexivity. Qed.

End ResolveClaims.

(** ** The properties of the fetch orchestration *)

Section FetchClaims.

Lemma Fetch_loop {St} (callback : ForEachBlockCallback St) (s : St)
    (blocks : list BlockRef) (events : list event) :
  Fetch callback s blocks None events =
  mkRun (runOutcome (fetchLoop callback s (len blocks) events))
        (runTrace (fetchLoop callback s (len blocks) events)
           ++ finish (runOutcome (fetchLoop callback s (len blocks) events)))
        (runState (fetchLoop callback s (len blocks) events))
        (runRemaining (fetchLoop callback s (len blocks) events))
        (runUnread (fetchLoop callback s (len blocks) events)).
Proof.
  unfold Fetch. destruct (fetchLoop _ _ _ _) as [[e|v|] tr s' n u]; simpl; [done|done|].
  by rewrite app_nil_r.
Qed.

Lemma fetchLoop_waiting_len {St} (callback : ForEachBlockCallback St)
    (events : list event) (s : St) (n : Z) :
  1 ≤ n → n ≤ MaxInt →
  runOutcome (fetchLoop callback s n events) = Waiting → len events < n.
Proof.
  revert s n. induction events as [|ev rest IH]; intros s n Hn Hmax.
  - intros _. unfold len. simpl. lia.
  - destruct ev as [err|err|b]; [done|done|].
    rewrite fetchLoop_ResRecv.
    destruct (invoke callback s b) as [s' [|e|v]]; simpl; [|done|done].
    rewrite wrapInt_small by (unfold MaxInt in *; lia).
    destruct (Z.eqb_spec (n - 1) 0) as [Hz|Hnz]; [done|]. simpl. intros Hw.
    apply IH in Hw; [|lia|lia]. unfold len in *. rewrite length_cons. lia.
Qed.

(** C3, as the code has it. For at least one requested block: when
    exactly as many blocks are delivered as were requested, no error is
    delivered, the context is not cancelled and the handler returns nil
    on each delivered block, [Fetch] invokes the handler once per
    delivered block, in the order of delivery, and returns nil. *)
Theorem C3_all_delivered :
  ∀ St (callback : ForEachBlockCallback St) (s : St) blocks delivered,
    1 ≤ len blocks → len blocks ≤ MaxInt →
    length delivered = length blocks →
    allNil callback s delivered →
    runOutcome (Fetch callback s blocks None (ResRecv <$> delivered)) = Returned None ∧
    callbacksOf (runTrace (Fetch callback s blocks None (ResRecv <$> delivered)))
      = delivered ∧
    runUnread (Fetch callback s blocks None (ResRecv <$> delivered)) = [] ∧
    fetchCompletes callback s blocks delivered.
Proof.
  intros St callback s blocks delivered Hn Hmax Hlen Hnil.
  unfold fetchCompletes. rewrite Fetch_loop. simpl.
  destruct (fetchLoop_all_delivered callback delivered s (len blocks))
    as (Ho & Ht & Hu); [done|done|by unfold len; rewrite Hlen|done|].
  rewrite Ho, Ht, Hu, callbacksOf_finish, callbacksOf_handled. done.
Qed.

Lemma C3_all_delivered_witness :
  fetchCompletes countOk 0%nat [blockA; blockB] [fetchedB; fetchedA].
Proof.
  apply (C3_all_delivered nat countOk 0%nat [blockA; blockB] [fetchedB; fetchedA]).
  - unfold len. simpl. lia.
  - unfold len, MaxInt. simpl. lia.
  - reflexivity.
  - simpl. done.
Defined.

(** C3, as stated: the handler's own result is not assumed and no block
    need be requested. With no block requested and nothing delivered
    the call has not returned; with one block requested and delivered
    and a handler that fails, the call returns the error. *)
Lemma C3_not_always_nil :
  ¬ fetchCompletes countOk 0%nat [] [] ∧
  ¬ fetchCompletes countFail 0%nat [blockA] [fetchedA].
Proof.
  split; intros [H _]; vm_compute in H; discriminate.
Qed.

(** C5. Every block that the loop of [Fetch] receives on the result
    channel is handed to the handler, and is closed once, right after
    the handler has returned or panicked: the steps of a call are, for
    each received block in turn, the handler's run followed by the
    close of that block, and only then the end of the call. So the
    close of a block comes before the next delivery is considered and
    before [Fetch] returns the handler's error. *)
Theorem C5_close_after_callback :
  (∀ St (callback : ForEachBlockCallback St) (s : St) (b : blockWithQuerier),
     (runCallback callback s b).1.2 = [ACallback b; AClose b] ∧
     (runCallback callback s b).1.1 = (invoke callback s b).1) ∧
  (∀ St (callback : ForEachBlockCallback St) (s : St) blocks events,
     ∃ used,
       events = used ++ runUnread (Fetch callback s blocks None events) ∧
       runTrace (Fetch callback s blocks None events) =
         handled (deliveries used)
           ++ finish (runOutcome (Fetch callback s blocks None events)) ∧
       callbacksOf (runTrace (Fetch callback s blocks None events)) = deliveries used ∧
       closesOf (runTrace (Fetch callback s blocks None events)) = deliveries used) ∧
  (∀ St (callback : ForEachBlockCallback St) (s : St) blocks pre b post e,
     runOutcome (Fetch callback s blocks None pre) = Waiting →
     (invoke callback (runState (Fetch callback s blocks None pre)) b).2 = CbErr e →
     runOutcome (Fetch callback s blocks None (pre ++ ResRecv b :: post)) =
       Returned (Some (ErrWrap ("error running callback function for block "
                                  +:+ BlockPath (bwqRef b) +:+ " err: ") e)) ∧
     runTrace (Fetch callback s blocks None (pre ++ ResRecv b :: post)) =
       handled (deliveries pre) ++ [ACallback b; AClose b; ACancel] ∧
     runUnread (Fetch callback s blocks None (pre ++ ResRecv b :: post)) = post) ∧
  (∀ St (callback : ForEachBlockCallback St) (s : St) blocks pre b post v,
     runOutcome (Fetch callback s blocks None pre) = Waiting →
     (invoke callback (runState (Fetch callback s blocks None pre)) b).2 = CbPanic v →
     runOutcome (Fetch callback s blocks None (pre ++ ResRecv b :: post)) = Panicked v ∧
     runTrace (Fetch callback s blocks None (pre ++ ResRecv b :: post)) =
       handled (deliveries pre) ++ [ACallback b; AClose b; ACancel] ∧
     runUnread (Fetch callback s blocks None (pre ++ ResRecv b :: post)) = post).
Proof.
  split; [|split; [|split]].
  - intros St callback s b. unfold runCallback.
    by destruct (invoke callback s b) as [s' [|e|v]].
  - intros St callback s blocks events. rewrite Fetch_loop. simpl.
    destruct (fetchLoop_used callback events s (len blocks)) as (used & Hu & Ht).
    exists used. rewrite Ht, callbacksOf_finish, closesOf_finish.
    by rewrite callbacksOf_handled, closesOf_handled.
  - intros St callback s blocks pre b post e. rewrite !Fetch_loop. simpl.
    intros Hw Hinv.
    destruct (fetchLoop_waiting callback pre s _ Hw) as (_ & bs & -> & _ & Htr).
    rewrite (fetchLoop_app callback _ _ _ _ Hw), fetchLoop_ResRecv, Hinv. simpl.
    by rewrite Htr, deliveries_ResRecv, <- app_assoc.
  - intros St callback s blocks pre b post v. rewrite !Fetch_loop. simpl.
    intros Hw Hinv.
    destruct (fetchLoop_waiting callback pre s _ Hw) as (_ & bs & -> & _ & Htr).
    rewrite (fetchLoop_app callback _ _ _ _ Hw), fetchLoop_ResRecv, Hinv. simpl.
    by rewrite Htr, deliveries_ResRecv, <- app_assoc.
Qed.

Lemma C5_close_after_callback_witness :
  runTrace (Fetch failThird 0%nat requested None
              (twoDelivered ++ ResRecv fetchedC :: [])) =
    handled (deliveries twoDelivered) ++ [ACallback fetchedC; AClose fetchedC; ACancel] ∧
  runTrace (Fetch countPanic 0%nat requested None
              ([] ++ ResRecv fetchedA :: twoDelivered)) =
    handled (deliveries []) ++ [ACallback fetchedA; AClose fetchedA; ACancel].
Proof.
  destruct C5_close_after_callback as (_ & _ & Herr & Hpanic).
  split.
  - apply (Herr nat failThird 0%nat requested twoDelivered
             fetchedC [] (ErrNew "handler failed")); reflexivity.
  - apply (Hpanic nat countPanic 0%nat requested []
             fetchedA twoDelivered "handler panicked"); reflexivity.
Defined.

Lemma errorsIs_refl (e : error) : errorsIs e e = true.
Proof. destruct e; simpl; by rewrite bool_decide_eq_true_2. Qed.

Lemma errorsIs_wrap (prefix : string) (inner cause : error) :
  errorsIs inner cause = true → errorsIs (ErrWrap prefix inner) cause = true.
Proof. intros H. simpl. rewrite H. apply orb_true_r. Qed.

Lemma addsContext_wrap (prefix : string) (inner cause : error) :
  errorsIs inner cause = true → addsContext (ErrWrap prefix inner) cause.
Proof. intros H. by exists prefix, inner. Qed.

Lemma addsContext_irrefl (e : error) : ¬ addsContext e e.
Proof.
  assert (∀ inner target : error, errorsIs inner target = true →
     (layers target ≤ layers inner)%nat) as Hsize.
  { induction inner as [msg|p inner IH]; intros target; simpl.
    - rewrite orb_false_r. by intros <-%bool_decide_eq_true.
    - intros [<-%bool_decide_eq_true|H%IH]%orb_true_iff; simpl; lia. }
  intros (p & inner & -> & H). apply Hsize in H. simpl in H. lia.
Qed.

Lemma stopError_cause {St} (callback : ForEachBlockCallback St) (s : St)
    (ev : event) (err : error) :
  stopError callback s ev = Some err →
  ∃ cause, causeOf callback s ev = Some cause ∧ Unwrap err = Some cause ∧
           addsContext err cause ∧ errorsIs err cause = true.
Proof.
  destruct ev as [e|e|b]; simpl.
  - intros [= <-]. exists e.
    auto using addsContext_wrap, errorsIs_wrap, errorsIs_refl.
  - intros [= <-]. exists e.
    auto using addsContext_wrap, errorsIs_wrap, errorsIs_refl.
  - destruct (invoke callback s b).2 as [|e|v]; [done| |done].
    intros [= <-]. exists e.
    auto using addsContext_wrap, errorsIs_wrap, errorsIs_refl.
Qed.

(** C4, as the code has it. Once the loop observes the cancellation of
    the context, a delivery on the error channel, or a handler that
    returns an error, [Fetch] returns an error that is not nil, and the
    handler is invoked on no event after that one. A call that has
    returned, for at least one requested block, is in one of two
    states: nil, after exactly as many deliveries as blocks were
    requested, with the handler run on each and returning nil (the
    requested blocks, when the downloader delivers each requested block
    at most once); or one error, after zero or more runs of the
    handler. A call returns only on these observations: while fewer
    blocks than requested have been delivered and handled and none of
    the three has been observed, it waits. *)
Theorem C4_stop_and_outcomes :
  (∀ St (callback : ForEachBlockCallback St) (s : St) blocks pre ev post err,
     runOutcome (Fetch callback s blocks None pre) = Waiting →
     stopError callback (runState (Fetch callback s blocks None pre)) ev = Some err →
     runOutcome (Fetch callback s blocks None (pre ++ ev :: post)) = Returned (Some err) ∧
     runUnread (Fetch callback s blocks None (pre ++ ev :: post)) = post ∧
     callbacksOf (runTrace (Fetch callback s blocks None (pre ++ ev :: post)))
       = deliveries (pre ++ [ev])) ∧
  (∀ St (callback : ForEachBlockCallback St) (s : St) blocks events,
     1 ≤ len blocks → len blocks ≤ MaxInt → len events ≤ MaxInt →
     runOutcome (Fetch callback s blocks None events) = Returned None →
     ∃ bs,
       events = (ResRecv <$> bs) ++ runUnread (Fetch callback s blocks None events) ∧
       length bs = length blocks ∧ allNil callback s bs ∧
       callbacksOf (runTrace (Fetch callback s blocks None events)) = bs ∧
       (bwqRef <$> deliveries events ⊆+ blocks → bwqRef <$> bs ≡ₚ blocks)) ∧
  (∀ St (callback : ForEachBlockCallback St) (s : St) blocks events err,
     runOutcome (Fetch callback s blocks None events) = Returned (Some err) →
     ∃ pre ev,
       events = pre ++ ev :: runUnread (Fetch callback s blocks None events) ∧
       runOutcome (Fetch callback s blocks None pre) = Waiting ∧
       stopError callback (runState (Fetch callback s blocks None pre)) ev = Some err ∧
       callbacksOf (runTrace (Fetch callback s blocks None events))
         = deliveries (pre ++ [ev])) ∧
  (∀ St (callback : ForEachBlockCallback St) (s : St) blocks bs,
     1 ≤ len blocks → len blocks ≤ MaxInt →
     (length bs < length blocks)%nat → allNil callback s bs →
     runOutcome (Fetch callback s blocks None (ResRecv <$> bs)) = Waiting ∧
     callbacksOf (runTrace (Fetch callback s blocks None (ResRecv <$> bs))) = bs) ∧
  (∀ St (callback : ForEachBlockCallback St) (s : St) blocks events,
     1 ≤ len blocks → len blocks ≤ MaxInt →
     runOutcome (Fetch callback s blocks None events) = Waiting →
     runUnread (Fetch callback s blocks None events) = [] ∧
     ∃ bs, events = ResRecv <$> bs ∧ allNil callback s bs ∧
           (length bs < length blocks)%nat).
Proof.
  split; [|split; [|split; [|split]]].
  - intros St callback s blocks pre ev post err. rewrite !Fetch_loop. simpl.
    intros Hw Hstop.
    destruct (fetchLoop_waiting callback pre s _ Hw) as (_ & bs & Hpre & _ & Htr).
    rewrite (fetchLoop_app callback _ _ _ _ Hw). unfold after.
    cbn [runOutcome runTrace runUnread runState runRemaining].
    destruct (fetchLoop_stop callback ev post _ (runRemaining
                (fetchLoop callback s (len blocks) pre)) err Hstop) as (Ho & Ht & Hu).
    rewrite Ho, Ht, Hu, Htr. repeat split.
    rewrite callbacksOf_finish, <- handled_app, callbacksOf_handled, deliveries_app.
    by rewrite Hpre, deliveries_ResRecv.
  - intros St callback s blocks events Hn Hmax Hev. rewrite !Fetch_loop. simpl.
    intros Ho.
    destruct (fetchLoop_nil_inv callback events s (len blocks))
      as (_ & bs & Hevs & Hlen & Hnil & Ht); [done|unfold MaxInt in *; lia|done|].
    exists bs. rewrite Ht, callbacksOf_finish, callbacksOf_handled.
    repeat split; try done.
    + unfold len in Hlen. lia.
    + intros Hsub. apply submseteq_length_Permutation.
      * etrans; [|exact Hsub]. rewrite Hevs at 1.
        rewrite deliveries_app, deliveries_ResRecv, fmap_app.
        apply submseteq_inserts_r. done.
      * rewrite length_fmap. unfold len in Hlen. lia.
  - intros St callback s blocks events err. rewrite !Fetch_loop. simpl.
    intros Ho.
    destruct (fetchLoop_err_inv callback events s _ err Ho)
      as (pre & ev & Hevs & Hw & Hstop & Ht).
    exists pre, ev. rewrite Fetch_loop. simpl.
    by rewrite Ht, callbacksOf_finish, callbacksOf_handled.
  - intros St callback s blocks bs Hn Hmax Hlen Hnil. rewrite !Fetch_loop. simpl.
    assert (runOutcome (fetchLoop callback s (len blocks) (ResRecv <$> bs)) = Waiting)
      as Hw by (apply fetchLoop_keeps_waiting; [done|unfold len; lia|done]).
    split; [done|].
    destruct (fetchLoop_waiting callback _ s _ Hw) as (_ & bs' & Hbs & _ & Htr).
    apply (f_equal deliveries) in Hbs. rewrite !deliveries_ResRecv in Hbs. subst bs'.
    by rewrite Htr, Hw, callbacksOf_finish, callbacksOf_handled.
  - intros St callback s blocks events Hn Hmax. rewrite !Fetch_loop. simpl. intros Hw.
    destruct (fetchLoop_waiting callback _ s _ Hw) as (Hu & bs & Hbs & Hnil & _).
    split; [done|]. exists bs. repeat split; try done.
    apply fetchLoop_waiting_len in Hw; [|done|done].
    rewrite Hbs in Hw. unfold len in Hw. rewrite length_fmap in Hw. lia.
Qed.

(** Two of three requested blocks are delivered, then an error: the
    call returns that error, wrapped, after two runs of the handler, and
    never receives the third block. Before the error it was waiting;
    had the third block come instead, it would have returned nil. *)
Lemma C4_stop_and_outcomes_witness :
  (runOutcome (Fetch countOk 0%nat requested None twoThenError)
     = Returned (Some (ErrWrap "failed to fetch blocks: " downloadFailed)) ∧
   runUnread (Fetch countOk 0%nat requested None twoThenError) = [ResRecv fetchedC] ∧
   callbacksOf (runTrace (Fetch countOk 0%nat requested None twoThenError))
     = deliveries (twoDelivered ++ [ErrRecv downloadFailed])) ∧
  (∃ bs,
     twoDelivered ++ [ResRecv fetchedC] =
       (ResRecv <$> bs)
         ++ runUnread (Fetch countOk 0%nat requested None
                         (twoDelivered ++ [ResRecv fetchedC])) ∧
     length bs = length requested ∧ allNil countOk 0%nat bs ∧
     callbacksOf (runTrace (Fetch countOk 0%nat requested None
                              (twoDelivered ++ [ResRecv fetchedC]))) = bs ∧
     (bwqRef <$> deliveries (twoDelivered ++ [ResRecv fetchedC]) ⊆+ requested →
      bwqRef <$> bs ≡ₚ requested)) ∧
  (∃ pre ev,
     twoThenError =
       pre ++ ev :: runUnread (Fetch countOk 0%nat requested None twoThenError) ∧
     runOutcome (Fetch countOk 0%nat requested None pre) = Waiting ∧
     stopError countOk (runState (Fetch countOk 0%nat requested None pre)) ev
       = Some (ErrWrap "failed to fetch blocks: " downloadFailed) ∧
     callbacksOf (runTrace (Fetch countOk 0%nat requested None twoThenError))
       = deliveries (pre ++ [ev])) ∧
  (runOutcome (Fetch countOk 0%nat requested None (ResRecv <$> [fetchedB; fetchedA]))
     = Waiting ∧
   callbacksOf (runTrace (Fetch countOk 0%nat requested None
                            (ResRecv <$> [fetchedB; fetchedA])))
     = [fetchedB; fetchedA]) ∧
  (runUnread (Fetch countOk 0%nat requested None twoDelivered) = [] ∧
   ∃ bs, twoDelivered = ResRecv <$> bs ∧ allNil countOk 0%nat bs ∧
         (length bs < length requested)%nat).
Proof.
  destruct C4_stop_and_outcomes as (Hstop & Hnil & Herr & Hwait & Hwaiting).
  assert (1 ≤ len requested) as Hn by (vm_compute; discriminate).
  assert (len requested ≤ MaxInt) as Hmax by (vm_compute; discriminate).
  split; [|split; [|split; [|split]]].
  - apply (Hstop nat countOk 0%nat requested twoDelivered (ErrRecv downloadFailed)
             [ResRecv fetchedC]); reflexivity.
  - apply (Hnil nat countOk 0%nat requested (twoDelivered ++ [ResRecv fetchedC]));
      [exact Hn | exact Hmax | vm_compute; discriminate | reflexivity].
  - apply (Herr nat countOk 0%nat requested twoThenError). reflexivity.
  - apply (Hwait nat countOk 0%nat requested [fetchedB; fetchedA]);
      [exact Hn | exact Hmax | simpl; lia | simpl; done].
  - apply (Hwaiting nat countOk 0%nat requested twoDelivered);
      [exact Hn | exact Hmax | reflexivity].
Defined.

(** C4, as stated: every call would end, with nil or with an error.
    With two blocks requested and one delivered the call waits; with no
    block requested and nothing delivered it waits as well; and when
    the handler panics the call panics. *)
Lemma C4_not_all_or_partial :
  ¬ allOrPartial (runOutcome (Fetch countOk 0%nat [blockA; blockB] None
                                [ResRecv fetchedA])) ∧
  ¬ allOrPartial (runOutcome (Fetch countOk 0%nat [] None [])) ∧
  ¬ allOrPartial (runOutcome (Fetch countPanic 0%nat [blockA] None
                                [ResRecv fetchedA])).
Proof.
  repeat split; intros [H|[err H]]; vm_compute in H; discriminate.
Qed.

(** C8, as the code has it. Every error returned by [GetBlockRefs] or
    [Fetch] keeps its cause for inspection. The error of [GetBlockRefs]
    is the error of the manifest store under two layers of context. An
    error that [Fetch] returns from its loop is the cancellation error
    or the error delivered on the error channel under the context of
    [Fetch], or the error of the handler under the context of the
    block. The error of the downloader's initial call is returned as it
    is, with no layer added, before any handler runs. *)
Theorem C8_error_context :
  (∀ (store : Client) o tenantID from through refs err,
     GetBlockRefs o tenantID from through = (refs, Some err) →
     ∃ cause,
       (GetMetas (searchParams tenantID from through [(0%N, MaxUint64)])).2 = Some cause ∧
       err = ErrWrap "error fetching active block references : "
               (ErrWrap "error fetching meta.json files: " cause) ∧
       refs = [] ∧ addsContext err cause ∧ errorsIs err cause = true) ∧
  (∀ St (callback : ForEachBlockCallback St) (s : St) blocks events err,
     runOutcome (Fetch callback s blocks None events) = Returned (Some err) →
     ∃ pre ev cause,
       events = pre ++ ev :: runUnread (Fetch callback s blocks None events) ∧
       runOutcome (Fetch callback s blocks None pre) = Waiting ∧
       causeOf callback (runState (Fetch callback s blocks None pre)) ev = Some cause ∧
       stopError callback (runState (Fetch callback s blocks None pre)) ev = Some err ∧
       Unwrap err = Some cause ∧
       addsContext err cause ∧ errorsIs err cause = true) ∧
  (∀ St (callback : ForEachBlockCallback St) (s : St) blocks events cause,
     runOutcome (Fetch callback s blocks (Some cause) events) = Returned (Some cause) ∧
     callbacksOf (runTrace (Fetch callback s blocks (Some cause) events)) = [] ∧
     runUnread (Fetch callback s blocks (Some cause) events) = events ∧
     errorsIs cause cause = true).
Proof.
  split; [|split].
  - intros store o tenantID from through refs err.
    unfold GetBlockRefs, getActiveBlockRefs.
    destruct (GetMetas _) as [metas [cause|]]; simpl; [|done].
    intros [= <- <-]. exists cause. repeat split.
    + apply addsContext_wrap, errorsIs_wrap, errorsIs_refl.
    + apply errorsIs_wrap, errorsIs_wrap, errorsIs_refl.
  - intros St callback s blocks events err. rewrite !Fetch_loop. simpl. intros Ho.
    destruct (fetchLoop_err_inv callback events s _ err Ho)
      as (pre & ev & Hevs & Hw & Hstop & _).
    destruct (stopError_cause callback _ ev err Hstop)
      as (cause & Hc & Hun & Hctx & His).
    exists pre, ev, cause. rewrite Fetch_loop. simpl. done.
  - intros St callback s blocks events cause. unfold Fetch. simpl.
    repeat split. apply errorsIs_refl.
Qed.

Lemma C8_error_context_witness :
  (∃ cause,
     (GetMetas (Client := brokenStore (ErrNew "storage unavailable"))
        (searchParams "tenant" 0 10 [(0%N, MaxUint64)])).2 = Some cause ∧
     ErrWrap "error fetching active block references : "
       (ErrWrap "error fetching meta.json files: " (ErrNew "storage unavailable"))
     = ErrWrap "error fetching active block references : "
         (ErrWrap "error fetching meta.json files: " cause) ∧
     ([] : list BlockRef) = [] ∧
     addsContext
       (ErrWrap "error fetching active block references : "
          (ErrWrap "error fetching meta.json files: " (ErrNew "storage unavailable")))
       cause ∧
     errorsIs
       (ErrWrap "error fetching active block references : "
          (ErrWrap "error fetching meta.json files: " (ErrNew "storage unavailable")))
       cause = true) ∧
  (∃ pre ev cause,
     twoThenError =
       pre ++ ev :: runUnread (Fetch countOk 0%nat requested None twoThenError) ∧
     runOutcome (Fetch countOk 0%nat requested None pre) = Waiting ∧
     causeOf countOk (runState (Fetch countOk 0%nat requested None pre)) ev
       = Some cause ∧
     stopError countOk (runState (Fetch countOk 0%nat requested None pre)) ev
       = Some (ErrWrap "failed to fetch blocks: " downloadFailed) ∧
     Unwrap (ErrWrap "failed to fetch blocks: " downloadFailed) = Some cause ∧
     addsContext (ErrWrap "failed to fetch blocks: " downloadFailed) cause ∧
     errorsIs (ErrWrap "failed to fetch blocks: " downloadFailed) cause = true).
Proof.
  destruct C8_error_context as (Hrefs & Hfetch & _).
  split.
  - apply (Hrefs (brokenStore (ErrNew "storage unavailable")) listOrder "tenant" 0 10).
    reflexivity.
  - apply (Hfetch nat countOk 0%nat requested twoThenError). reflexivity.
Defined.

(** The sample run in full: the handler runs on the two delivered
    blocks, each is closed right after, the handler has counted two
    invocations, and the third block stays unread. *)
Example twoThenError_run :
  Fetch countOk 0%nat requested None twoThenError =
  {| runOutcome := Returned (Some (ErrWrap "failed to fetch blocks: " downloadFailed));
     runTrace := [ACallback fetchedB; AClose fetchedB;
                  ACallback fetchedA; AClose fetchedA; ACancel];
     runState := 2%nat;
     runRemaining := 1;
     runUnread := [ResRecv fetchedC] |}.
Proof. reflexivity. Qed.

(** The message of the error returned in the sample run. *)
Example twoThenError_message :
  (λ o, match o with Returned (Some err) => errorString err | _ => "" end)
    (runOutcome (Fetch countOk 0%nat requested None twoThenError))
  = "failed to fetch blocks: download failed".
Proof. reflexivity. Qed.

(** C8, as stated: the error of the downloader's initial call would be
    wrapped with context. [Fetch] returns that error itself. *)
Lemma C8_setup_error_bare :
  runOutcome (Fetch countOk 0%nat [blockA] (Some (ErrNew "queue stopped")) [])
    = Returned (Some (ErrNew "queue stopped")) ∧
  ¬ addsContext (ErrNew "queue stopped") (ErrNew "queue stopped").
Proof.
  split; [reflexivity|]. apply addsContext_irrefl.
Qed.

End FetchClaims.

(** ** Range arithmetic: what the filter keeps *)

Section RangeCover.

Lemma ascending_cons (p : fpRange) (R : list fpRange) :
  ascending (p :: R) → (minFp p ≤ maxFp p)%N ∧ ascending R.
Proof.
  intros [Hwf Hasc]. apply Forall_cons in Hwf as [Hp Hwf].
  split; [done|]. split; [done|].
  intros i q c Hq Hc. by apply (Hasc (S i)).
Qed.

Lemma ascending_sorted (R : list fpRange) :
  ascending R → StronglySorted before R.
Proof.
  induction R as [|p R IH]; intros Hasc; [constructor|].
  pose proof (ascending_cons _ _ Hasc) as [Hp HR].
  specialize (IH HR). constructor; [done|].
  destruct R as [|c R]; [constructor|].
  assert (before p c) as Hpc by (by apply (proj2 Hasc 0%nat)).
  apply StronglySorted_cons in IH as [Hc _].
  destruct (ascending_cons _ _ HR) as [Hwc _].
  constructor; [done|].
  eapply Forall_impl; [exact Hc|]. unfold before in *. intros d Hd. lia.
Qed.

Lemma ascending_wf (R : list fpRange) (r : fpRange) :
  ascending R → r ∈ R → (minFp r ≤ maxFp r)%N.
Proof. intros [Hwf _] Hr. rewrite Forall_forall in Hwf. by apply Hwf. Qed.

Lemma sorted_lookup_before (R : list fpRange) (i j : nat) (p c : fpRange) :
  StronglySorted before R → R !! i = Some p → R !! j = Some c → (i < j)%nat →
  before p c.
Proof.
  intros Hs. revert i j. induction Hs as [|x R Hs IH Hx]; intros i j Hp Hc Hij.
  - discriminate.
  - destruct j as [|j]; [lia|]. destruct i as [|i]; simpl in *.
    + simplify_eq. rewrite Forall_forall in Hx.
      apply Hx. by eapply list_elem_of_lookup_2.
    + apply (IH i j); [done|done|lia].
Qed.

(** Up to and including a position, ranges end no later than the range
    there; from a position on, they start no earlier. *)
Lemma ascending_lookup_le (R : list fpRange) (i j : nat) (p c : fpRange) :
  ascending R → R !! i = Some p → R !! j = Some c → (i ≤ j)%nat →
  (minFp p ≤ minFp c)%N ∧ (maxFp p ≤ maxFp c)%N.
Proof.
  intros Hasc Hp Hc Hij.
  destruct (decide (i = j)) as [->|Hne]; [by simplify_eq|].
  pose proof (sorted_lookup_before R i j p c (ascending_sorted _ Hasc) Hp Hc) as Hb.
  pose proof (ascending_wf R p Hasc (list_elem_of_lookup_2 _ _ _ Hp)).
  pose proof (ascending_wf R c Hasc (list_elem_of_lookup_2 _ _ _ Hc)).
  unfold before in Hb. lia.
Qed.

Lemma firstRange_lookup (R : list fpRange) : R ≠ [] → R !! 0%nat = Some (firstRange R).
Proof. by destruct R. Qed.

Lemma lastRange_lookup (R : list fpRange) :
  R ≠ [] → R !! pred (length R) = Some (lastRange R).
Proof.
  intros HR. unfold lastRange. rewrite <- last_lookup.
  destruct (last R) eqn:Hl; [done|]. by apply last_None in Hl.
Qed.

(** The scan finds a range that the block overlaps when the block
    starts above the cursor, lies in no gap and does not start above
    the last range. *)
Lemma scan_finds_overlap (b : BlockRef) (R : list fpRange) (prev : fpRange) :
  (maxFp prev < MinFingerprint b)%N →
  ¬ inGap b (prev :: R) →
  (MinFingerprint b ≤ maxFp (lastRange (prev :: R)))%N →
  ∃ r, r ∈ R ∧ overlaps b r.
Proof.
  revert prev. induction R as [|c R IH]; intros prev Hprev Hgap Hlast.
  - unfold lastRange in Hlast. simpl in Hlast. lia.
  - rewrite inGap_cons_cons in Hgap.
    destruct (decide (MinFingerprint b ≤ maxFp c)%N) as [Hc|Hc].
    + exists c. split; [left|]. split; [done|].
      destruct (decide (minFp c ≤ MaxFingerprint b)%N); [done|].
      exfalso. apply Hgap. left. lia.
    + destruct (IH c) as (r & Hr & Ho); [lia|tauto| |].
      * unfold lastRange in *. by rewrite last_cons_cons in Hlast.
      * exists r. split; [by right|done].
Qed.

Lemma kept_overlaps (b : BlockRef) (from through : Z) (R : list fpRange) :
  R ≠ [] → isOutsideRange b from through R = false →
  ¬ timeDisjoint b from through ∧ ∃ r, r ∈ R ∧ overlaps b r.
Proof.
  intros HR Hout.
  assert (¬ (timeDisjoint b from through ∨ boundDisjoint b R
             ∨ inGap b ((0%N, 0%N) :: R))) as Hno.
  { rewrite <- isOutsideRange_cursor. by rewrite Hout. }
  split; [tauto|].
  destruct R as [|c R]; [done|].
  assert (¬ boundDisjoint b (c :: R)) as Hb by tauto.
  unfold boundDisjoint, firstRange in Hb. simpl in Hb.
  destruct (decide (MinFingerprint b ≤ maxFp c)%N) as [Hc|Hc].
  - exists c. split; [left|]. split; [done|lia].
  - destruct (scan_finds_overlap b R c) as (r & Hr & Ho); [lia| |lia|].
    + intros Hgap. apply Hno. right; right.
      apply inGap_cons_cons. by right.
    + exists r. split; [by right|done].
Qed.

Lemma overlap_kept (b : BlockRef) (from through : Z) (R : list fpRange) (r : fpRange) :
  ascending R → r ∈ R → overlaps b r → ¬ timeDisjoint b from through →
  isOutsideRange b from through R = false.
Proof.
  intros Hasc Hr [Ho1 Ho2] Htime.
  destruct (isOutsideRange b from through R) eqn:Hout; [|done]. exfalso.
  apply list_elem_of_lookup in Hr as [k Hk].
  assert (R ≠ []) as HR by (intros ->; discriminate).
  apply isOutsideRange_spec in Hout as [Ht|[[Hlo|Hhi]|(i & p & c & Hp & Hc & Hg1 & Hg2)]].
  - done.
  - destruct (ascending_lookup_le R 0 k (firstRange R) r Hasc) as [? _];
      [by apply firstRange_lookup|done|lia|lia].
  - pose proof (lookup_lt_Some _ _ _ Hk).
    destruct (ascending_lookup_le R k (pred (length R)) r (lastRange R) Hasc)
      as [_ ?]; [done|by apply lastRange_lookup|lia|lia].
  - destruct (decide (k ≤ i)%nat).
    + destruct (ascending_lookup_le R k i r p Hasc) as [_ ?]; [done|done|done|lia].
    + destruct (ascending_lookup_le R (S i) k c r Hasc) as [? _]; [done|done|lia|lia].
Qed.

(** X1. For shard ranges that are ascending and not empty,
    [isOutsideRange] keeps a block exactly when its time interval
    meets the window and its fingerprint interval overlaps one of the
    ranges. A kept block overlaps a range whatever the order of the
    ranges; the order is needed for the converse. *)
Theorem isOutsideRange_keeps_overlapping :
  (∀ b from through R,
     R ≠ [] → ascending R →
     (isOutsideRange b from through R = false ↔
      ¬ timeDisjoint b from through ∧ ∃ r, r ∈ R ∧ overlaps b r)) ∧
  (∀ b from through R,
     R ≠ [] → isOutsideRange b from through R = false →
     ∃ r, r ∈ R ∧ overlaps b r) ∧
  (overlaps blockLow (0%N, 10%N) ∧ isOutsideRange blockLow 0 10 unordered = true).
Proof.
  split; [|split].
  - intros b from through R HR Hasc. split.
    + by apply kept_overlaps.
    + intros [Ht (r & Hr & Ho)]. by eapply overlap_kept.
  - intros b from through R HR Hout. by eapply kept_overlaps.
  - split; [|reflexivity]. unfold overlaps. simpl. lia.
Qed.

Lemma isOutsideRange_keeps_overlapping_witness :
  (isOutsideRange blockA 0 10 shards = false ↔
   ¬ timeDisjoint blockA 0 10 ∧ ∃ r, r ∈ shards ∧ overlaps blockA r) ∧
  (∃ r, r ∈ shards ∧ overlaps blockA r).
Proof.
  destruct isOutsideRange_keeps_overlapping as (Hiff & Hkept & _).
  split.
  - apply (Hiff blockA 0 10 shards); [discriminate | apply shards_ascending].
  - apply (Hkept blockA 0 10 shards); [discriminate | reflexivity].
Defined.

(** X2. For ascending ranges the two ranges that [getFirstLast] returns
    bound all of them: no range starts below the first one or ends
    above the last one. *)
Theorem getFirstLast_bounds :
  ∀ (R : list fpRange) (r : fpRange),
    ascending R → r ∈ R →
    (minFp (getFirstLast R).1 ≤ minFp r)%N ∧ (maxFp r ≤ maxFp (getFirstLast R).2)%N.
Proof.
  intros R r Hasc Hr. rewrite getFirstLast_ranges. simpl.
  assert (R ≠ []) as HR by (intros ->; by apply not_elem_of_nil in Hr).
  apply list_elem_of_lookup in Hr as [k Hk].
  pose proof (lookup_lt_Some _ _ _ Hk).
  destruct (ascending_lookup_le R 0 k (firstRange R) r Hasc) as [? _];
    [by apply firstRange_lookup|done|lia|].
  destruct (ascending_lookup_le R k (pred (length R)) r (lastRange R) Hasc)
    as [_ ?]; [done|by apply lastRange_lookup|lia|].
  done.
Qed.

Lemma getFirstLast_bounds_witness :
  (minFp (getFirstLast shards).1 ≤ minFp (20%N, 30%N))%N ∧
  (maxFp (20%N, 30%N) ≤ maxFp (getFirstLast shards).2)%N.
Proof.
  apply (getFirstLast_bounds shards (20%N, 30%N)).
  - apply shards_ascending.
  - right. left.
Defined.

End RangeCover.

(** ** The filtering engine and the resolution: completeness *)

Section ResolveCover.

Lemma discovered_elem (metas : list Meta) (from through : Z) (R : list fpRange)
    (b : BlockRef) :
  b ∈ discovered metas from through R ↔
  b ∈ walk metas ∧ ¬ tombstoned metas (BlockPath b) ∧
  isOutsideRange b from through R = false.
Proof.
  unfold discovered, active. rewrite list_elem_of_filter, elem_of_outdatedBlocksOf.
  tauto.
Qed.

Lemma findBlocks_paths_iff o metas from through R (path : string) :
  path ∈ BlockPath <$> findBlocks o metas from through R ↔
  ∃ b, b ∈ walk metas ∧ BlockPath b = path ∧ ¬ tombstoned metas path ∧
       isOutsideRange b from through R = false.
Proof.
  rewrite list_elem_of_fmap. split.
  - intros (b & -> & Hb%findBlocks_discovered%discovered_elem).
    exists b. tauto.
  - intros (b & Hw & <- & Ht & Hr).
    assert (b ∈ withPath (BlockPath b) (discovered metas from through R)) as Hin.
    { apply list_elem_of_filter. split; [done|]. by apply discovered_elem. }
    destruct (last (withPath (BlockPath b) (discovered metas from through R)))
      as [b'|] eqn:Hl.
    + assert (BlockPath b' = BlockPath b) as Hp.
      { apply last_Some_elem_of in Hl. by apply list_elem_of_filter in Hl as [? _]. }
      exists b'. split; [done|]. apply elem_of_findBlocks_last. by rewrite Hp.
    + apply last_None in Hl. rewrite Hl in Hin. by apply not_elem_of_nil in Hin.
Qed.

(** X3. A path is the path of a block in the result of [findBlocks]
    exactly when some meta lists a block with that path that is not
    tombstoned in any meta and not outside the range: no such path is
    left out. *)
Theorem findBlocks_paths_complete :
  ∀ o metas from through R path,
    path ∈ BlockPath <$> findBlocks o metas from through R ↔
    ∃ b, b ∈ walk metas ∧ BlockPath b = path ∧ ¬ tombstoned metas path ∧
         isOutsideRange b from through R = false.
Proof. intros. apply findBlocks_paths_iff. Qed.

Lemma isOutsideRange_widen (b : BlockRef) (from through from' through' : Z)
    (R : list fpRange) :
  from' ≤ from → through ≤ through' →
  isOutsideRange b from through R = false →
  isOutsideRange b from' through' R = false.
Proof.
  intros Hf Ht Hout.
  destruct (isOutsideRange b from' through' R) eqn:Hout'; [|done].
  apply isOutsideRange_spec in Hout'.
  assert (isOutsideRange b from through R = true) as Habs; [|congruence].
  apply isOutsideRange_spec. unfold timeDisjoint in *.
  destruct Hout' as [[?|?]|?]; [left; lia | left; lia | by right].
Qed.

(** X14. A wider time window never loses a block: every path in the
    result of [findBlocks] for a window is in the result for any window
    that contains it, whatever the order of the map. *)
Theorem findBlocks_window_monotone :
  ∀ o o' metas from through from' through' R path,
    from' ≤ from → through ≤ through' →
    path ∈ BlockPath <$> findBlocks o metas from through R →
    path ∈ BlockPath <$> findBlocks o' metas from' through' R.
Proof.
  intros o o' metas from through from' through' R path Hf Ht.
  rewrite !findBlocks_paths_iff. intros (b & Hw & Hp & Htomb & Hout).
  exists b. repeat split; try done. by eapply isOutsideRange_widen.
Qed.

Lemma findBlocks_window_monotone_witness :
  "a" ∈ BlockPath <$> findBlocks reverseOrder [mkMeta [blockC] [blockA; blockB]]
                        (-5) 20 wide.
Proof.
  apply (findBlocks_window_monotone listOrder reverseOrder
           [mkMeta [blockC] [blockA; blockB]] 2 8 (-5) 20 wide "a").
  - lia.
  - lia.
  - apply (bool_decide_unpack _). vm_compute. exact I.
Defined.

(** X4. When the blocks listed by the metas have distinct paths, the
    result of [findBlocks] holds exactly the blocks that are neither
    tombstoned nor outside the range, each once. *)
Theorem findBlocks_distinct_paths :
  ∀ o metas from through R,
    NoDup (BlockPath <$> walk metas) →
    findBlocks o metas from through R ≡ₚ discovered metas from through R.
Proof.
  intros o metas from through R Hnd.
  assert (NoDup (BlockPath <$> discovered metas from through R)) as Hnd'.
  { eapply sublist_NoDup; [exact Hnd|]. apply fmap_sublist, sublist_filter. }
  apply NoDup_Permutation.
  - eapply NoDup_fmap_1, findBlocks_NoDup_paths.
  - by eapply NoDup_fmap_1.
  - intros b. rewrite elem_of_findBlocks_last. split.
    + intros Hl%last_Some_elem_of. by apply list_elem_of_filter in Hl as [_ ?].
    + intros Hb. by rewrite (withPath_NoDup _ _ Hnd' Hb).
Qed.

Lemma findBlocks_distinct_paths_witness :
  findBlocks listOrder [mkMeta [blockC] [blockA; blockB]; mkMeta [] [blockC; blockZ]]
    0 10 wide
  ≡ₚ discovered [mkMeta [blockC] [blockA; blockB]; mkMeta [] [blockC; blockZ]]
       0 10 wide.
Proof.
  apply (findBlocks_distinct_paths listOrder
           [mkMeta [blockC] [blockA; blockB]; mkMeta [] [blockC; blockZ]] 0 10 wide).
  apply (bool_decide_unpack _). vm_compute. exact I.
Defined.

Lemma getActiveBlockRefs_sorted (store : Client) o tenantID from through R :
  StronglySorted byMinFp (getActiveBlockRefs o tenantID from through R).1.
Proof.
  unfold getActiveBlockRefs.
  destruct (GetMetas _) as [metas [e|]]; simpl; [constructor|].
  apply SortStableFunc_sorted.
Qed.

Lemma findBlocks_order_perm (o1 o2 : MapOrder) metas from through R :
  findBlocks o1 metas from through R ≡ₚ findBlocks o2 metas from through R.
Proof. unfold findBlocks. by rewrite (rangeOver_perm o1), (rangeOver_perm o2). Qed.

Lemma NoDup_fmap_inj_on {A B} (f : A → B) (l : list A) (x y : A) :
  NoDup (f <$> l) → x ∈ l → y ∈ l → f x = f y → x = y.
Proof.
  induction l as [|z l IH]; intros Hnd Hx Hy Hxy; [by apply not_elem_of_nil in Hx|].
  rewrite fmap_cons in Hnd. apply NoDup_cons in Hnd as [Hz Hnd].
  apply elem_of_cons in Hx as [->|Hx]; apply elem_of_cons in Hy as [->|Hy].
  - done.
  - exfalso. apply Hz. rewrite Hxy. by apply list_elem_of_fmap_2.
  - exfalso. apply Hz. rewrite <- Hxy. by apply list_elem_of_fmap_2.
  - by apply IH.
Qed.

(** X5. The order in which the map is iterated shows only in the order
    of blocks with equal [MinFingerprint]: for two orders,
    [getActiveBlockRefs] returns the same blocks with the same sequence
    of [MinFingerprint] values, and the same list when no two blocks of
    the result share a [MinFingerprint]. *)
Theorem getActiveBlockRefs_order :
  (∀ (store : Client) o1 o2 tenantID from through R,
     (getActiveBlockRefs o1 tenantID from through R).1
       ≡ₚ (getActiveBlockRefs o2 tenantID from through R).1 ∧
     MinFingerprint <$> (getActiveBlockRefs o1 tenantID from through R).1
       = MinFingerprint <$> (getActiveBlockRefs o2 tenantID from through R).1 ∧
     (getActiveBlockRefs o1 tenantID from through R).2
       = (getActiveBlockRefs o2 tenantID from through R).2) ∧
  (∀ (store : Client) o1 o2 tenantID from through R,
     NoDup (MinFingerprint <$> (getActiveBlockRefs o1 tenantID from through R).1) →
     getActiveBlockRefs o1 tenantID from through R
       = getActiveBlockRefs o2 tenantID from through R).
Proof.
  assert (∀ (store : Client) o1 o2 tenantID from through R,
     (getActiveBlockRefs o1 tenantID from through R).1
       ≡ₚ (getActiveBlockRefs o2 tenantID from through R).1 ∧
     (getActiveBlockRefs o1 tenantID from through R).2
       = (getActiveBlockRefs o2 tenantID from through R).2) as Hperm.
  { intros store o1 o2 tenantID from through R. unfold getActiveBlockRefs.
    destruct (GetMetas _) as [metas [e|]]; simpl; [done|].
    split; [|done]. rewrite !SortStableFunc_perm. apply findBlocks_order_perm. }
  split.
  - intros store o1 o2 tenantID from through R.
    destruct (Hperm store o1 o2 tenantID from through R) as [Hp He].
    split; [done|]. split; [|done].
    apply (StronglySorted_unique_strong N.le).
    + intros x1 x2 _ _ ? ?. lia.
    + apply (StronglySorted_fmap _ byMinFp); [done|].
      apply getActiveBlockRefs_sorted.
    + apply (StronglySorted_fmap _ byMinFp); [done|].
      apply getActiveBlockRefs_sorted.
    + by rewrite Hp.
  - intros store o1 o2 tenantID from through R Hnd.
    destruct (Hperm store o1 o2 tenantID from through R) as [Hp He].
    apply injective_projections; [|done].
    apply (StronglySorted_unique_strong byMinFp).
    + intros x1 x2 Hx1 Hx2 H12 H21. rewrite <- Hp in Hx2.
      apply (NoDup_fmap_inj_on MinFingerprint _ _ _ Hnd Hx1 Hx2).
      unfold byMinFp in *. lia.
    + apply getActiveBlockRefs_sorted.
    + apply getActiveBlockRefs_sorted.
    + done.
Qed.

Lemma getActiveBlockRefs_order_witness :
  getActiveBlockRefs (H := storeOf [mkMeta [] [blockC; blockA]; mkMeta [blockB] [blockB]])
    listOrder "tenant" 0 10 wide
  = getActiveBlockRefs (H := storeOf [mkMeta [] [blockC; blockA]; mkMeta [blockB] [blockB]])
      reverseOrder "tenant" 0 10 wide.
Proof.
  apply (proj2 getActiveBlockRefs_order
           (storeOf [mkMeta [] [blockC; blockA]; mkMeta [blockB] [blockB]])
           listOrder reverseOrder "tenant" 0 10 wide).
  apply (bool_decide_unpack _). vm_compute. exact I.
Defined.

Lemma isOutsideRange_fullDomain (b : BlockRef) (from through : Z) :
  (MinFingerprint b ≤ MaxUint64)%N →
  (isOutsideRange b from through fullDomain = true ↔ timeDisjoint b from through).
Proof.
  intros Hb. rewrite isOutsideRange_spec. split; [|tauto].
  intros [Ht|[[Hlo|Hhi]|Hgap]]; [done| | |].
  - unfold firstRange, fullDomain in Hlo. simpl in Hlo. lia.
  - unfold lastRange, fullDomain in Hhi. simpl in Hhi. unfold maxFp in Hhi.
    simpl in Hhi. lia.
  - by apply inGap_single in Hgap.
Qed.

(** X6. [GetBlockRefs] filters by time and tombstones only. When the
    store answers with metas whose fingerprints fit 64 bits, the call
    succeeds with a list sorted by [MinFingerprint] whose blocks are
    listed by some meta, tombstoned by none, and meet the time window;
    and every path of such a block is in the list. The call fails
    exactly when the store fails. *)
Theorem GetBlockRefs_time_filter :
  (∀ (store : Client) o tenantID from through metas,
     GetMetas (searchParams tenantID from through fullDomain) = (metas, None) →
     (∀ b, b ∈ walk metas → (MinFingerprint b ≤ MaxUint64)%N) →
     ∃ out,
       GetBlockRefs o tenantID from through = (out, None) ∧
       StronglySorted byMinFp out ∧
       (∀ b, b ∈ out →
             b ∈ walk metas ∧ ¬ tombstoned metas (BlockPath b) ∧
             ¬ timeDisjoint b from through) ∧
       (∀ b, b ∈ walk metas → ¬ tombstoned metas (BlockPath b) →
             ¬ timeDisjoint b from through →
             BlockPath b ∈ BlockPath <$> out)) ∧
  (∀ (store : Client) o tenantID from through,
     (GetBlockRefs o tenantID from through).2 = None ↔
     (GetMetas (searchParams tenantID from through fullDomain)).2 = None).
Proof.
  split.
  - intros store o tenantID from through metas Hm Hfit.
    exists (SortStableFunc cmpMinFingerprint (findBlocks o metas from through fullDomain)).
    unfold GetBlockRefs, getActiveBlockRefs. fold fullDomain. rewrite Hm. simpl.
    split; [done|]. split; [apply SortStableFunc_sorted|]. split.
    + intros b. rewrite SortStableFunc_perm.
      intros (Hw & Ht & Hr)%findBlocks_discovered%discovered_elem.
      repeat split; try done.
      intros Htime. apply isOutsideRange_fullDomain in Htime; [|by apply Hfit].
      congruence.
    + intros b Hw Ht Htime. rewrite SortStableFunc_perm.
      apply findBlocks_paths_iff. exists b. repeat split; try done.
      destruct (isOutsideRange b from through fullDomain) eqn:Hr; [|done].
      apply isOutsideRange_fullDomain in Hr; [done|by apply Hfit].
  - intros store o tenantID from through.
    unfold GetBlockRefs, getActiveBlockRefs. fold fullDomain.
    by destruct (GetMetas _) as [metas [e|]].
Qed.

Lemma GetBlockRefs_time_filter_witness :
  ∃ out,
    GetBlockRefs (H := storeOf [mkMeta [blockC] [blockA; blockB]; mkMeta [] [blockC]])
      listOrder "tenant" 0 10 = (out, None) ∧
    StronglySorted byMinFp out ∧
    (∀ b, b ∈ out →
          b ∈ walk [mkMeta [blockC] [blockA; blockB]; mkMeta [] [blockC]] ∧
          ¬ tombstoned [mkMeta [blockC] [blockA; blockB]; mkMeta [] [blockC]]
              (BlockPath b) ∧
          ¬ timeDisjoint b 0 10) ∧
    (∀ b, b ∈ walk [mkMeta [blockC] [blockA; blockB]; mkMeta [] [blockC]] →
          ¬ tombstoned [mkMeta [blockC] [blockA; blockB]; mkMeta [] [blockC]]
              (BlockPath b) →
          ¬ timeDisjoint b 0 10 →
          BlockPath b ∈ BlockPath <$> out).
Proof.
  apply (proj1 GetBlockRefs_time_filter
           (storeOf [mkMeta [blockC] [blockA; blockB]; mkMeta [] [blockC]])
           listOrder "tenant" 0 10 [mkMeta [blockC] [blockA; blockB]; mkMeta [] [blockC]]).
  - reflexivity.
  - apply Forall_forall. apply (bool_decide_unpack _). vm_compute. exact I.
Defined.

End ResolveCover.

(** ** Fetch orchestration: bounds and edge cases *)

Section FetchCover.

Lemma callbacksOf_app (tr1 tr2 : list action) :
  callbacksOf (tr1 ++ tr2) = callbacksOf tr1 ++ callbacksOf tr2.
Proof. unfold callbacksOf. apply omap_app. Qed.

Lemma Fetch_callbacksOf {St} (callback : ForEachBlockCallback St) (s : St)
    (blocks : list BlockRef) (events : list event) :
  callbacksOf (runTrace (Fetch callback s blocks None events)) =
  callbacksOf (runTrace (fetchLoop callback s (len blocks) events)).
Proof. rewrite Fetch_loop. simpl. apply callbacksOf_finish. Qed.

Lemma fetchLoop_callbacks_le {St} (callback : ForEachBlockCallback St)
    (events : list event) (s : St) (n : Z) :
  1 ≤ n → n ≤ MaxInt →
  len (callbacksOf (runTrace (fetchLoop callback s n events))) ≤ n.
Proof.
  revert s n. induction events as [|ev rest IH]; intros s n Hn Hmax.
  - unfold len. simpl. lia.
  - destruct ev as [err|err|b]; [unfold len; simpl; lia..|].
    rewrite fetchLoop_ResRecv.
    destruct (invoke callback s b) as [s' [|e|v]]; simpl;
      [|unfold len; simpl; lia..].
    rewrite wrapInt_small by (unfold MaxInt in *; lia).
    destruct (Z.eqb_spec (n - 1) 0) as [Hz|Hnz]; simpl; [unfold len; simpl; lia|].
    specialize (IH s' (n - 1)). unfold len in *. simpl. lia.
Qed.

(** X7. For at least one requested block, [Fetch] never invokes the
    handler more often than blocks were requested, however many blocks
    the downloader delivers. *)
Theorem Fetch_callbacks_bounded :
  ∀ St (callback : ForEachBlockCallback St) (s : St) blocks fetchErr events,
    1 ≤ len blocks → len blocks ≤ MaxInt →
    (length (callbacksOf (runTrace (Fetch callback s blocks fetchErr events)))
       ≤ length blocks)%nat.
Proof.
  intros St callback s blocks [err|] events Hn Hmax.
  - unfold Fetch. simpl. lia.
  - rewrite Fetch_callbacksOf.
    pose proof (fetchLoop_callbacks_le callback events s (len blocks) Hn Hmax) as H.
    unfold len in *. lia.
Qed.

Lemma Fetch_callbacks_bounded_witness :
  (length (callbacksOf (runTrace (Fetch countOk 0%nat [blockA; blockB] None
             [ResRecv fetchedA; ResRecv fetchedB; ResRecv fetchedC; ResRecv fetchedA])))
     ≤ length [blockA; blockB])%nat.
Proof.
  apply (Fetch_callbacks_bounded nat countOk 0%nat [blockA; blockB] None).
  - vm_compute. discriminate.
  - vm_compute. discriminate.
Defined.

Lemma fetchLoop_done_app {St} (callback : ForEachBlockCallback St)
    (events more : list event) (s : St) (n : Z) :
  runOutcome (fetchLoop callback s n events) ≠ Waiting →
  fetchLoop callback s n (events ++ more) =
  mkRun (runOutcome (fetchLoop callback s n events))
        (runTrace (fetchLoop callback s n events))
        (runState (fetchLoop callback s n events))
        (runRemaining (fetchLoop callback s n events))
        (runUnread (fetchLoop callback s n events) ++ more).
Proof.
  revert s n. induction events as [|ev rest IH]; intros s n; [done|].
  destruct ev as [err|err|b]; [done|done|].
  rewrite <- app_comm_cons, !fetchLoop_ResRecv.
  destruct (invoke callback s b) as [s' [|e|v]]; simpl; [|done|done].
  destruct (wrapInt (n - 1) =? 0); [done|]. simpl. intros Hw.
  by rewrite (IH _ _ Hw).
Qed.

(** X8. Once a call of [Fetch] has returned or panicked, nothing that
    is delivered later changes it: the result, the steps taken and the
    state of the handler stay as they are, and the later events stay
    unread. *)
Theorem Fetch_ignores_later_events :
  ∀ St (callback : ForEachBlockCallback St) (s : St) blocks fetchErr events more,
    runOutcome (Fetch callback s blocks fetchErr events) ≠ Waiting →
    Fetch callback s blocks fetchErr (events ++ more) =
    mkRun (runOutcome (Fetch callback s blocks fetchErr events))
          (runTrace (Fetch callback s blocks fetchErr events))
          (runState (Fetch callback s blocks fetchErr events))
          (runRemaining (Fetch callback s blocks fetchErr events))
          (runUnread (Fetch callback s blocks fetchErr events) ++ more).
Proof.
  intros St callback s blocks [err|] events more; [done|].
  rewrite !Fetch_loop. simpl. intros Hw.
  by rewrite (fetchLoop_done_app callback events more s _ Hw).
Qed.

Lemma Fetch_ignores_later_events_witness :
  Fetch countOk 0%nat requested None (twoThenError ++ [CtxDone (ErrNew "cancelled")]) =
  mkRun (runOutcome (Fetch countOk 0%nat requested None twoThenError))
        (runTrace (Fetch countOk 0%nat requested None twoThenError))
        (runState (Fetch countOk 0%nat requested None twoThenError))
        (runRemaining (Fetch countOk 0%nat requested None twoThenError))
        (runUnread (Fetch countOk 0%nat requested None twoThenError)
           ++ [CtxDone (ErrNew "cancelled")]).
Proof.
  apply (Fetch_ignores_later_events nat countOk 0%nat requested None twoThenError).
  vm_compute. discriminate.
Defined.

Lemma fetchLoop_nonpositive_waits {St} (callback : ForEachBlockCallback St)
    (bs : list blockWithQuerier) (s : St) (n : Z) :
  n ≤ 0 → - 2 ^ 63 ≤ n - len bs → allNil callback s bs →
  runOutcome (fetchLoop callback s n (ResRecv <$> bs)) = Waiting.
Proof.
  revert s n. induction bs as [|b bs IH]; intros s n Hn Hmin Hnil; [done|].
  rewrite fmap_cons, fetchLoop_ResRecv. destruct Hnil as [-> Hnil].
  unfold len in *. rewrite length_cons in Hmin.
  rewrite wrapInt_small by (unfold MaxInt; lia).
  destruct (Z.eqb_spec (n - 1) 0); [lia|]. simpl. apply IH; [lia|lia|done].
Qed.

(** X9. With no block requested [Fetch] does not return nil: it handles
    every block that is delivered all the same, and waits until the
    context is cancelled, an error is delivered or the handler fails. *)
Theorem Fetch_no_blocks :
  (∀ St (callback : ForEachBlockCallback St) (s : St) events,
     len events ≤ MaxInt →
     runOutcome (Fetch callback s [] None events) ≠ Returned None) ∧
  (∀ St (callback : ForEachBlockCallback St) (s : St) bs,
     len bs ≤ MaxInt → allNil callback s bs →
     runOutcome (Fetch callback s [] None (ResRecv <$> bs)) = Waiting ∧
     callbacksOf (runTrace (Fetch callback s [] None (ResRecv <$> bs))) = bs).
Proof.
  split.
  - intros St callback s events Hmax. rewrite Fetch_loop. simpl. intros Ho.
    apply fetchLoop_nil_inv in Ho as [Hn _].
    + unfold len in Hn. simpl in Hn. lia.
    + unfold len, MaxInt. simpl. lia.
    + unfold len, MaxInt in *. simpl. lia.
  - intros St callback s bs Hmax Hnil. rewrite Fetch_callbacksOf, Fetch_loop. simpl.
    assert (runOutcome (fetchLoop callback s (len (@nil BlockRef)) (ResRecv <$> bs))
            = Waiting)
      as Hw.
    { apply fetchLoop_nonpositive_waits; [done| |done].
      unfold len, MaxInt in *. simpl. lia. }
    split; [done|].
    destruct (fetchLoop_waiting callback _ s _ Hw) as (_ & bs' & Hbs & _ & Htr).
    apply (f_equal deliveries) in Hbs. rewrite !deliveries_ResRecv in Hbs. subst bs'.
    by rewrite Htr, callbacksOf_handled.
Qed.

Lemma Fetch_no_blocks_witness :
  runOutcome (Fetch countOk 0%nat [] None twoDelivered) ≠ Returned None ∧
  (runOutcome (Fetch countOk 0%nat [] None (ResRecv <$> [fetchedB; fetchedA])) = Waiting ∧
   callbacksOf (runTrace (Fetch countOk 0%nat [] None (ResRecv <$> [fetchedB; fetchedA])))
     = [fetchedB; fetchedA]).
Proof.
  destruct Fetch_no_blocks as [Hnil Hwait].
  split.
  - apply (Hnil nat countOk 0%nat twoDelivered). vm_compute. discriminate.
  - apply (Hwait nat countOk 0%nat [fetchedB; fetchedA]).
    + vm_compute. discriminate.
    + simpl. done.
Defined.

Lemma fetchLoop_state {St} (callback : ForEachBlockCallback St)
    (events : list event) (s : St) (n : Z) :
  runState (fetchLoop callback s n events) =
  foldl (λ s b, (invoke callback s b).1) s
        (callbacksOf (runTrace (fetchLoop callback s n events))).
Proof.
  revert s n. induction events as [|ev rest IH]; intros s n; [done|].
  destruct ev as [err|err|b]; [done|done|].
  rewrite fetchLoop_ResRecv.
  destruct (invoke callback s b) as [s' [|e|v]] eqn:Hinv; simpl; rewrite ?Hinv; try done.
  destruct (wrapInt (n - 1) =? 0); simpl; rewrite ?Hinv; [done|].
  apply IH.
Qed.

(** X15. The handler sees the received blocks in the order of their
    delivery, each with the state its previous run left: the state at
    the end of a call is the one obtained by running the handler over
    the blocks it was invoked on, in turn. *)
Theorem Fetch_threads_state :
  ∀ St (callback : ForEachBlockCallback St) (s : St) blocks fetchErr events,
    runState (Fetch callback s blocks fetchErr events) =
    foldl (λ s b, (invoke callback s b).1) s
          (callbacksOf (runTrace (Fetch callback s blocks fetchErr events))).
Proof.
  intros St callback s blocks [err|] events; [done|].
  rewrite Fetch_callbacksOf, Fetch_loop. simpl. apply fetchLoop_state.
Qed.

End FetchCover.

(** ** Cached iterators: proofs *)

Section CachedFacts.

Context {V L W : Type} `{!Iterator V L W} `{!Missing V L}.

Lemma inv_len_pos (it : cachedIterator V L W) : inv it → 0 ≤ len (cache it).
Proof. intros _. unfold len. lia. Qed.

Lemma Next_replay (it : cachedIterator V L W) :
  inv it → curr it + 1 < len (cache it) →
  Next it = (true, mkCached (cache it) (wrapped it) (curr it + 1)
                            (closeErr it) (iterErr it)).
Proof.
  intros (Hc & Hmax & _) Hlt. unfold CachedIter.Next.
  rewrite wrapInt_small by (unfold MaxInt in *; lia).
  destruct (Z.eqb_spec (len (cache it)) 0) as [Hz|_]; [lia|]. simpl.
  destruct (Z.leb_spec (len (cache it)) (curr it + 1)); [lia|done].
Qed.

Lemma Next_consume (it : cachedIterator V L W) (w : W) :
  inv it → curr it = len (cache it) - 1 → wrapped it = Some w →
  Next it =
  if (wNext w).1
  then (true, mkCached (cache it ++ [shownBy (wNext w).2]) (Some (wNext w).2)
                       (wrapInt (len (cache it))) (closeErr it) (iterErr it))
  else (false, mkCached (cache it) None (curr it)
                        (wClose (wNext w).2).1 (wError (wClose (wNext w).2).2)).
Proof.
  intros (Hc & Hmax & _) Hcurr Hw. unfold CachedIter.Next, consumeWrapped, Wrapped.
  rewrite Hw. simpl. rewrite andb_false_r.
  replace (curr it + 1) with (len (cache it)) by lia.
  assert (wrapInt (len (cache it)) = len (cache it)) as Hwrap
    by (apply wrapInt_small; unfold len, MaxInt in *; lia).
  rewrite Hwrap. rewrite Z.leb_refl.
  destruct (wNext w) as [[|] w1]; simpl; [done|].
  by destruct (wClose w1) as [ce w2].
Qed.

Lemma Next_done (it : cachedIterator V L W) :
  inv it → curr it = len (cache it) - 1 → wrapped it = None →
  Next it = (false, it).
Proof.
  intros (Hc & Hmax & _) Hcurr Hw. unfold CachedIter.Next, Wrapped. rewrite Hw. simpl.
  destruct (len (cache it) =? 0); simpl; [done|].
  rewrite wrapInt_small by (unfold MaxInt in *; lia).
  destruct (Z.leb_spec (len (cache it)) (curr it + 1)); [done|lia].
Qed.

Lemma current_lookup (it : cachedIterator V L W) (x : item V L) :
  0 ≤ curr it → cache it !! Z.to_nat (curr it) = Some x → current it = x.
Proof.
  intros Hc Hx. pose proof (lookup_lt_Some _ _ _ Hx) as Hlt.
  unfold CachedIter.current, Entry, Labels, StreamHash, noCurrent.
  destruct (Z.eqb_spec (len (cache it)) 0) as [Hz|_]; [unfold len in Hz; lia|].
  destruct (Z.ltb_spec (curr it) 0); [lia|].
  destruct (Z.leb_spec (len (cache it)) (curr it)); [unfold len in *; lia|].
  simpl. rewrite Hx. by destruct x.
Qed.

Lemma pass_more_fuel (fuel fuel' : nat) (it : cachedIterator V L W) r :
  pass fuel it = Some r → (fuel ≤ fuel')%nat → pass fuel' it = Some r.
Proof.
  revert fuel' it r. induction fuel as [|fuel IH]; intros fuel' it r; [done|].
  intros Hp Hle. destruct fuel' as [|fuel']; [lia|]. simpl in *.
  destruct (Next it) as [[|] it1]; [|done].
  destruct (pass fuel it1) as [[xs it2]|] eqn:Hp1; [|done].
  by rewrite (IH fuel' it1 _ Hp1) by lia.
Qed.

(** The replay phase: the cached items from the current position on
    are returned one by one, and what follows is the pass from the end
    of the cache. *)
Lemma pass_replay (k fuel : nat) (it : cachedIterator V L W) :
  inv it → length (cache it) = (Z.to_nat (curr it + 1) + k)%nat →
  pass (k + fuel) it =
  match pass fuel (mkCached (cache it) (wrapped it) (len (cache it) - 1)
                            (closeErr it) (iterErr it)) with
  | Some (xs, it') => Some (drop (Z.to_nat (curr it + 1)) (cache it) ++ xs, it')
  | None => None
  end.
Proof.
  revert it. induction k as [|k IH]; intros it Hinv Hlen.
  - destruct Hinv as (Hc & _). unfold len in *.
    replace (Z.of_nat (length (cache it)) - 1) with (curr it) by lia.
    rewrite drop_ge by lia. simpl. destruct it; simpl.
    by destruct (pass fuel _) as [[xs it']|].
  - pose proof Hinv as (Hc & Hmax & Herr). unfold len in *.
    change (S k + fuel)%nat with (S (k + fuel)). cbn [CachedIter.pass].
    rewrite Next_replay by (done || unfold len; lia).
    set (it1 := mkCached (cache it) (wrapped it) (curr it + 1) (closeErr it) (iterErr it)).
    assert (inv it1) as Hinv1 by (unfold inv, len; simpl; split; [lia|done]).
    rewrite (IH it1 Hinv1) by (simpl; lia). simpl.
    destruct (lookup_lt_is_Some_2 (cache it) (Z.to_nat (curr it + 1))) as [x Hx]; [lia|].
    rewrite (current_lookup it1 x); [|simpl; lia|done].
    destruct (pass fuel _) as [[xs it']|]; [|done].
    rewrite (drop_S _ _ _ Hx). do 3 f_equal.
    by replace (Z.to_nat (curr it + 1 + 1)) with (S (Z.to_nat (curr it + 1))) by lia.
Qed.

(** The consuming phase: from the end of the cache on, a pass returns
    what a pass over the wrapped iterator returns and caches it. *)
Lemma pass_consume (fuel : nat) (it : cachedIterator V L W) (w w' : W)
    (xs : list (item V L)) :
  inv it → curr it = len (cache it) - 1 → wrapped it = Some w →
  wPass fuel w = Some (xs, w') → len (cache it) + len xs ≤ MaxInt →
  pass fuel it =
  Some (xs, mkCached (cache it ++ xs) None (len (cache it ++ xs) - 1)
                     (wClose w').1 (wError (wClose w').2)).
Proof.
  revert it w xs. induction fuel as [|fuel IH]; intros it w xs Hinv Hcurr Hw; [done|].
  pose proof Hinv as (Hc & Hmax & Herr). cbn [CachedIter.pass wPass].
  rewrite (Next_consume it w Hinv Hcurr Hw).
  destruct (wNext w) as [[|] w1]; simpl.
  - destruct (wPass fuel w1) as [[xs1 w1']|] eqn:Hp; [|done].
    intros [= <- <-] Hroom. unfold len in Hroom. simpl in Hroom.
    assert (wrapInt (len (cache it)) = len (cache it)) as Hwrap
      by (apply wrapInt_small; unfold len, MaxInt in *; lia).
    rewrite Hwrap.
    set (it1 := mkCached (cache it ++ [shownBy w1]) (Some w1) (len (cache it))
                         (closeErr it) (iterErr it)).
    assert (len (cache it1) = len (cache it) + 1) as Hlen1
      by (unfold len; simpl; rewrite length_app; simpl; lia).
    assert (inv it1) as Hinv1.
    { unfold inv. rewrite Hlen1. simpl. unfold len in *. repeat split; try lia.
      all: by apply Herr; rewrite Hw. }
    rewrite (IH it1 w1 xs1 Hinv1) by (done || rewrite ?Hlen1; simpl; unfold len in *; lia).
    rewrite (current_lookup it1 (shownBy w1)).
    + simpl. by rewrite <- app_assoc.
    + simpl. unfold len. lia.
    + simpl. unfold len. rewrite Nat2Z.id. by apply list_lookup_middle.
  - intros [= <- <-] _. rewrite app_nil_r. by rewrite Hcurr.
Qed.

Lemma inv_fresh (w : W) : inv (mkCached (V := V) (L := L) [] (Some w) (-1) None None).
Proof. unfold inv, len, MaxInt. simpl. repeat split; lia. Qed.

Lemma inv_end (it : cachedIterator V L W) :
  inv it →
  inv (mkCached (cache it) (wrapped it) (len (cache it) - 1) (closeErr it) (iterErr it)).
Proof. intros (Hc & Hmax & Herr). unfold inv. simpl. repeat split; try lia; by apply Herr. Qed.

Lemma inv_Reset (it : cachedIterator V L W) : inv it → inv (Reset it).
Proof. intros (Hc & Hmax & Herr). unfold inv. simpl. repeat split; try lia; by apply Herr. Qed.


(** X11. Once the wrapped iterator is exhausted, a pass after [Reset] or
    after [Close] returns exactly the cached items, in order, and
    changes nothing but the position; a further pass without [Reset]
    returns nothing. *)
Theorem cached_replay :
  ∀ (it : cachedIterator V L W),
    inv it → wrapped it = None →
    pass (S (length (cache it))) (Reset it) =
      Some (cache it, mkCached (cache it) None (len (cache it) - 1)
                               (closeErr it) (iterErr it)) ∧
    pass (S (length (cache it))) (Close it).2 =
      Some (cache it, mkCached (cache it) None (len (cache it) - 1)
                               (closeErr it) (iterErr it)) ∧
    pass 1 (mkCached (cache it) None (len (cache it) - 1) (closeErr it) (iterErr it)) =
      Some ([], mkCached (cache it) None (len (cache it) - 1)
                         (closeErr it) (iterErr it)).
Proof.
  intros it Hinv Hw.
  assert (pass 1 (mkCached (cache it) None (len (cache it) - 1)
                           (closeErr it) (iterErr it)) =
          Some ([], mkCached (cache it) None (len (cache it) - 1)
                             (closeErr it) (iterErr it))) as Hend.
  { cbn [CachedIter.pass]. rewrite Next_done; [done| |done|done].
    pose proof (inv_end it Hinv) as Hi. by rewrite Hw in Hi. }
  assert (pass (S (length (cache it))) (Reset it) =
      Some (cache it, mkCached (cache it) None (len (cache it) - 1)
                               (closeErr it) (iterErr it))) as Hreplay.
  { replace (S (length (cache it))) with (length (cache it) + 1)%nat by lia.
    rewrite (pass_replay (length (cache it)) 1 (Reset it) (inv_Reset it Hinv))
      by (simpl; lia).
    simpl cache. simpl wrapped. simpl closeErr. simpl iterErr. rewrite Hw, Hend.
    simpl. by rewrite app_nil_r. }
  done.
Qed.

(** X12. A [Reset] in the middle of a pass loses nothing: the next pass
    returns the items cached so far and then the remaining items of the
    wrapped iterator, which it adds to the cache. *)
Theorem cached_resume :
  ∀ (it : cachedIterator V L W) (w w' : W) (fuel : nat) (xs : list (item V L)),
    inv it → wrapped it = Some w →
    wPass fuel w = Some (xs, w') → len (cache it) + len xs ≤ MaxInt →
    pass (length (cache it) + fuel) (Reset it) =
      Some (cache it ++ xs,
            mkCached (cache it ++ xs) None (len (cache it ++ xs) - 1)
                     (wClose w').1 (wError (wClose w').2)).
Proof.
  intros it w w' fuel xs Hinv Hw Hp Hroom.
  rewrite (pass_replay (length (cache it)) fuel (Reset it) (inv_Reset it Hinv))
    by (simpl; lia).
  simpl cache. simpl wrapped. simpl closeErr. simpl iterErr.
  rewrite (pass_consume fuel _ w w' xs (inv_end it Hinv)) by done.
  done.
Qed.

(** X13. From its creation on a cached iterator keeps its position at -1
    or at an index of the cache, and records no error while the wrapped
    iterator is in place: [Error] and [Close] return nil until a [Next]
    has exhausted the wrapped iterator. [Next] only ever appends to the
    cache, and after a [Next] that returns true the accessors return an
    item of the cache. *)
Theorem cached_invariant :
  (∀ (w : W) cap it, NewCachedIterator (V := V) (L := L) w cap = Some it → inv it) ∧
  (∀ (it : cachedIterator V L W),
     inv it → len (cache it) < MaxInt →
     inv (Next it).2 ∧ cache it `prefix_of` cache (Next it).2 ∧
     ((Next it).1 = true →
      cache (Next it).2 !! Z.to_nat (curr (Next it).2) = Some (current (Next it).2))) ∧
  (∀ (it : cachedIterator V L W), inv it → inv (Reset it) ∧ inv (Close it).2) ∧
  (∀ (it : cachedIterator V L W),
     inv it → is_Some (wrapped it) → Error it = None ∧ (Close it).1 = None).
Proof.
  split; [|split; [|split]].
  - intros w cap it. unfold NewCachedIterator.
    destruct (cap <? 0); [done|]. intros [= <-]. apply inv_fresh.
  - intros it Hinv Hroom. pose proof Hinv as (Hc & Hmax & Herr).
    destruct (decide (curr it + 1 < len (cache it))) as [Hlt|Hge].
    + rewrite Next_replay by done. simpl.
      assert (inv (mkCached (cache it) (wrapped it) (curr it + 1)
                            (closeErr it) (iterErr it))) as Hinv1
        by (unfold inv; simpl; repeat split; try lia; by apply Herr).
      split; [done|]. split; [done|]. intros _.
      destruct (lookup_lt_is_Some_2 (cache it) (Z.to_nat (curr it + 1))) as [x Hx];
        [unfold len in *; lia|].
      rewrite Hx. f_equal. symmetry. by apply current_lookup; simpl; [lia|].
    + assert (curr it = len (cache it) - 1) as Hcurr by lia.
      destruct (wrapped it) as [w|] eqn:Hw.
      * rewrite (Next_consume it w Hinv Hcurr Hw).
        assert (wrapInt (len (cache it)) = len (cache it)) as Hwrap
          by (apply wrapInt_small; unfold len, MaxInt in *; lia).
        destruct (wNext w) as [[|] w1]; simpl; rewrite ?Hwrap.
        -- assert (len (cache it ++ [shownBy w1]) = len (cache it) + 1) as Hlen1
             by (unfold len; rewrite length_app; simpl; lia).
           split; [|split].
           ++ unfold inv. simpl. rewrite Hlen1. unfold len in *.
              repeat split; try lia; apply Herr; by eexists.
           ++ by apply prefix_app_r.
           ++ intros _.
              assert ((cache it ++ [shownBy w1]) !! Z.to_nat (len (cache it))
                      = Some (shownBy w1)) as Hx
                by (unfold len; rewrite Nat2Z.id; by apply list_lookup_middle).
              rewrite Hx. f_equal. symmetry.
              apply current_lookup; simpl; [unfold len; lia|done].
        -- split; [|split; [done|done]].
           unfold inv. simpl. split; [lia|]. split; [lia|]. by intros [? ?].
      * rewrite (Next_done it Hinv Hcurr Hw). simpl.
        split; [exact Hinv|]. split; [done|]. intros ?; discriminate.
  - intros it Hinv. split; by apply inv_Reset.
  - intros it (_ & _ & Herr) Hw. destruct (Herr Hw) as [Hce Hie].
    unfold Error, Close. simpl. by rewrite Hce, Hie.
Qed.

End CachedFacts.

Section CachedSamples.

Lemma inv_afterOne : inv afterOne.
Proof.
  unfold inv, afterOne, len, MaxInt. simpl. split; [lia|]. split; [lia|]. done.
Qed.

Lemma inv_drained : inv drained.
Proof.
  unfold inv, drained, len, MaxInt. simpl. split; [lia|]. split; [lia|].
  by intros [? ?].
Qed.


Lemma cached_replay_witness :
  pass (S (length (cache drained))) (Reset drained) =
    Some (cache drained, mkCached (cache drained) None (len (cache drained) - 1)
                                  (closeErr drained) (iterErr drained)) ∧
  pass (S (length (cache drained))) (Close drained).2 =
    Some (cache drained, mkCached (cache drained) None (len (cache drained) - 1)
                                  (closeErr drained) (iterErr drained)) ∧
  pass 1 (mkCached (cache drained) None (len (cache drained) - 1)
                   (closeErr drained) (iterErr drained)) =
    Some ([], mkCached (cache drained) None (len (cache drained) - 1)
                       (closeErr drained) (iterErr drained)).
Proof.
  apply (cached_replay drained).
  - apply inv_drained.
  - reflexivity.
Defined.

Lemma cached_resume_witness :
  pass (length (cache afterOne) + 2) (Reset afterOne) =
    Some (cache afterOne ++ [entry2],
          mkCached (cache afterOne ++ [entry2]) None
                   (len (cache afterOne ++ [entry2]) - 1)
                   (wClose twoEntriesDone).1 (wError (wClose twoEntriesDone).2)).
Proof.
  apply (cached_resume afterOne
           (mkListIter [entry2] (Some entry1)
              (Some (ErrNew "read failed")) (Some (ErrNew "close failed")) false)
           twoEntriesDone 2 [entry2]).
  - apply inv_afterOne.
  - reflexivity.
  - reflexivity.
  - vm_compute. discriminate.
Defined.

Lemma cached_invariant_witness :
  inv (mkCached (V := string) (L := string) [] (Some twoEntries) (-1) None None) ∧
  (inv (Next afterOne).2 ∧ cache afterOne `prefix_of` cache (Next afterOne).2 ∧
   ((Next afterOne).1 = true →
    cache (Next afterOne).2 !! Z.to_nat (curr (Next afterOne).2)
      = Some (current (Next afterOne).2))) ∧
  (inv (Reset drained) ∧ inv (Close drained).2) ∧
  (Error afterOne = None ∧ (Close afterOne).1 = None).
Proof.
  destruct (cached_invariant (V := string) (L := string) (W := listIter string string))
    as (Hnew & Hnext & Hreset & Herr).
  split; [|split; [|split]].
  - apply (Hnew twoEntries 4). reflexivity.
  - apply (Hnext afterOne); [apply inv_afterOne | vm_compute; reflexivity].
  - apply (Hreset drained). apply inv_drained.
  - apply (Herr afterOne); [apply inv_afterOne | by eexists].
Defined.

(** The sample iterator through its life: a first pass, the errors it
    then reports, and the replay after [Close]. *)
Example twoEntries_life :
  (it ← NewCachedIterator twoEntries 4;
   '(first, it) ← pass 3 it;
   let '(closeError, it) := Close it in
   '(again, it) ← pass 3 it;
   Some (first, closeError, Error it, again))
  = Some ([entry1; entry2], Some (ErrNew "close failed"),
          Some (ErrNew "read failed"), [entry1; entry2]).
Proof. reflexivity. Qed.

End CachedSamples.

(** ** The counting logger: proofs *)

Section PromLogFacts.

Context {Lg : Type} `{!InnerLogger Lg}.

Lemma scanLevel_found (kv : list kvValue) (i : nat) (name : string) :
  kv !! (2 * i + 1)%nat = Some (LevelValue name) →
  (∀ j n, (j < i)%nat → kv !! (2 * j + 1)%nat ≠ Some (LevelValue n)) →
  scanLevel kv = name.
Proof.
  revert kv. induction i as [|i IH]; intros kv Hi Hbefore.
  - destruct kv as [|k [|v kv]]; simpl in Hi; try done. by simplify_eq.
  - destruct kv as [|k [|v kv]]; try done.
    replace (2 * S i + 1)%nat with (S (S (2 * i + 1))) in Hi by lia.
    simpl in Hi. destruct v as [n|t].
    + exfalso. by apply (Hbefore 0%nat n); [lia|].
    + simpl. apply IH; [done|]. intros j n Hj Hn.
      apply (Hbefore (S j) n); [lia|].
      by replace (2 * S j + 1)%nat with (S (S (2 * j + 1))) by lia.
Qed.

Lemma scanLevel_unknown (kv : list kvValue) :
  (∀ i n, kv !! (2 * i + 1)%nat ≠ Some (LevelValue n)) → scanLevel kv = "unknown".
Proof.
  assert (∀ m (l : list kvValue), (length l ≤ m)%nat →
            (∀ i n, l !! (2 * i + 1)%nat ≠ Some (LevelValue n)) →
            scanLevel l = "unknown") as Hall; [|by apply (Hall (length kv))].
  clear kv. induction m as [|m IH]; intros l Hlen Hnone.
  - destruct l; [done|simpl in Hlen; lia].
  - destruct l as [|k [|v l]]; try done.
    destruct v as [n|t].
    + exfalso. by apply (Hnone 0%nat n).
    + simpl. apply IH; [simpl in Hlen; lia|]. intros i n Hn.
      apply (Hnone (S i) n).
      by replace (2 * S i + 1)%nat with (S (S (2 * i + 1))) by lia.
Qed.

(** X16. [Log] counts a line under the name of the first level value
    that stands at an odd position of its arguments, the position of a
    value; a level value at an even position, that of a key, is not
    looked at, and a line without a level value at an odd position is
    counted under "unknown". *)
Theorem Log_level :
  (∀ (pl : prometheusLogger Lg) kv i name,
     kv !! (2 * i + 1)%nat = Some (LevelValue name) →
     (∀ j n, (j < i)%nat → kv !! (2 * j + 1)%nat ≠ Some (LevelValue n)) →
     countOf (logMessages (Log pl kv).1) name
       = (countOf (logMessages pl) name + 1)%N) ∧
  (∀ (pl : prometheusLogger Lg) kv,
     (∀ i n, kv !! (2 * i + 1)%nat ≠ Some (LevelValue n)) →
     countOf (logMessages (Log pl kv).1) "unknown"
       = (countOf (logMessages pl) "unknown" + 1)%N).
Proof.
  split.
  - intros pl kv i name Hi Hbefore. unfold Log.
    destruct (innerLog (logger pl) kv) as [lg e]. simpl.
    rewrite (scanLevel_found kv i name Hi Hbefore).
    unfold Inc, countOf at 1. by rewrite lookup_insert_eq.
  - intros pl kv Hnone. unfold Log.
    destruct (innerLog (logger pl) kv) as [lg e]. simpl.
    rewrite (scanLevel_unknown kv Hnone).
    unfold Inc, countOf at 1. by rewrite lookup_insert_eq.
Qed.

Lemma countOf_Inc (vec : gmap string N) (l l' : string) :
  countOf (Inc l vec) l' = (countOf vec l' + if decide (l' = l) then 1 else 0)%N.
Proof.
  unfold Inc, countOf at 1. rewrite lookup_insert.
  destruct (decide (l = l')) as [->|Hne].
  - by rewrite decide_True.
  - rewrite decide_False by done. fold (countOf vec l'). lia.
Qed.

Lemma Log_result (pl : prometheusLogger Lg) (kv : list kvValue) :
  (Log pl kv).2 = None ∧
  logMessages (Log pl kv).1 = Inc (scanLevel kv) (logMessages pl) ∧
  internalLogMessages (Log pl kv).1 = Inc (scanLevel kv) (internalLogMessages pl).
Proof. unfold Log. by destruct (innerLog (logger pl) kv) as [lg e]. Qed.

Lemma logAll_counts (pl : prometheusLogger Lg) (lines : list (list kvValue))
    (l : string) :
  countOf (logMessages (logAll pl lines)) l
    = (countOf (logMessages pl) l + N.of_nat (length (linesAt l lines)))%N ∧
  countOf (internalLogMessages (logAll pl lines)) l
    = (countOf (internalLogMessages pl) l + N.of_nat (length (linesAt l lines)))%N.
Proof.
  revert pl. induction lines as [|kv lines IH]; intros pl.
  - unfold linesAt. simpl. split; lia.
  - unfold logAll in *. simpl. destruct (IH (Log pl kv).1) as [H1 H2].
    destruct (Log_result pl kv) as (_ & Hm & Hi).
    rewrite H1, H2, Hm, Hi, !countOf_Inc. unfold linesAt. rewrite filter_cons.
    destruct (decide (scanLevel kv = l)) as [<-|Hne].
    + rewrite decide_True by done. simpl length. split; lia.
    + rewrite decide_False by done. split; lia.
Qed.

Lemma initialCounters_zero (lg : Lg) (l : string) :
  countOf (logMessages (initialCounters lg)) l = 0%N ∧
  countOf (internalLogMessages (initialCounters lg)) l = 0%N.
Proof.
  unfold initialCounters, supportedLevels. simpl.
  unfold WithLabelValues, countOf.
  rewrite !lookup_insert, !lookup_empty.
  repeat (case_decide; simpl; rewrite ?lookup_insert, ?lookup_empty); done.
Qed.

(** X17. Counting from the counters that [newPrometheusLogger] sets up,
    after any run of calls of [Log] the two counter vectors agree, each
    counts under every label exactly the lines logged with that label,
    and the four supported levels have a counter even when nothing was
    logged with them. No call reports an error, also when the logger
    underneath fails. *)
Theorem Log_counts :
  (∀ (lg : Lg) lines l,
     countOf (logMessages (logAll (initialCounters lg) lines)) l
       = N.of_nat (length (linesAt l lines)) ∧
     countOf (internalLogMessages (logAll (initialCounters lg) lines)) l
       = N.of_nat (length (linesAt l lines))) ∧
  (∀ (lg : Lg) lines l,
     l ∈ supportedLevels →
     is_Some (logMessages (logAll (initialCounters lg) lines) !! l) ∧
     is_Some (internalLogMessages (logAll (initialCounters lg) lines) !! l)) ∧
  (∀ (pl : prometheusLogger Lg) kv, (Log pl kv).2 = None).
Proof.
  split; [|split].
  - intros lg lines l. destruct (logAll_counts (initialCounters lg) lines l) as [H1 H2].
    destruct (initialCounters_zero lg l) as [Z1 Z2].
    rewrite H1, H2, Z1, Z2. split; lia.
  - intros lg lines l Hl.
    assert (∀ (pl : prometheusLogger Lg),
      is_Some (logMessages pl !! l) ∧ is_Some (internalLogMessages pl !! l) →
      is_Some (logMessages (logAll pl lines) !! l) ∧
      is_Some (internalLogMessages (logAll pl lines) !! l)) as Hkeep.
    { induction lines as [|kv lines IH]; intros pl Hpl; [done|].
      unfold logAll in *. simpl. apply IH.
      destruct (Log_result pl kv) as (_ & -> & ->). unfold Inc.
      rewrite !lookup_insert. destruct Hpl.
      split; case_decide; eauto. }
    apply Hkeep. unfold initialCounters, supportedLevels in *. simpl.
    unfold WithLabelValues.
    repeat (apply elem_of_cons in Hl as [->|Hl]);
      [| | | |by apply not_elem_of_nil in Hl];
      rewrite !lookup_insert; split; repeat case_decide; eauto; done.
  - intros pl kv. apply Log_result.
Qed.

End PromLogFacts.

Section PromLogSamples.

Lemma Log_level_witness :
  countOf (logMessages (Log (initialCounters ([] : list (list kvValue)))
                            lateLevelLine).1) "warn"
    = (countOf (logMessages (initialCounters ([] : list (list kvValue)))) "warn" + 1)%N ∧
  countOf (logMessages (Log (initialCounters ([] : list (list kvValue)))
                            keyLevelLine).1) "unknown"
    = (countOf (logMessages (initialCounters ([] : list (list kvValue)))) "unknown"
       + 1)%N.
Proof.
  destruct (Log_level (Lg := list (list kvValue))) as [Hfound Hunknown].
  split.
  - apply (Hfound (initialCounters []) lateLevelLine 1%nat "warn").
    + reflexivity.
    + intros j n Hj. assert (j = 0%nat) as -> by lia. simpl. discriminate.
  - apply (Hunknown (initialCounters []) keyLevelLine).
    intros i n Hi. pose proof (lookup_lt_Some _ _ _ Hi) as Hlt. simpl in Hlt.
    assert (i = 0%nat) as -> by lia. simpl in Hi. discriminate.
Defined.

Lemma Log_counts_witness :
  is_Some (logMessages (logAll (initialCounters ([] : list (list kvValue)))
                          [infoLine; keyLevelLine; infoLine]) !! "debug") ∧
  is_Some (internalLogMessages (logAll (initialCounters ([] : list (list kvValue)))
                                  [infoLine; keyLevelLine; infoLine]) !! "debug").
Proof.
  apply (proj1 (proj2 (Log_counts (Lg := list (list kvValue))))
           [] [infoLine; keyLevelLine; infoLine] "debug").
  left.
Defined.

(** Three lines through a logger whose inner logger fails: two are
    counted under "info", the one with the level in key position under
    "unknown", and the inner logger has received all three. *)
Example three_lines :
  (λ pl, (countOf (logMessages pl) "info", countOf (logMessages pl) "unknown",
          countOf (logMessages pl) "error", length (logger pl)))
    (logAll (initialCounters ([] : list (list kvValue)))
            [infoLine; keyLevelLine; infoLine])
  = (2%N, 1%N, 0%N, 3%nat).
Proof. reflexivity. Qed.

End PromLogSamples.
